(** * The map module of the world editor: [Voxel], [Cube] and [World]

    A shallow embedding of the map module (classes [World], [Cube] and
    [Voxel]) together with the properties its specification states. The
    editor around it (scene, menus, file loading) only calls into the
    module and is not embedded, except for what the "new cube" button does
    to the world. [Cube.center] and [Cube.radius] are floating-point
    geometry and are left out.

    Conventions of the embedding.
    - A JavaScript array is a [list]; a number that the module uses as an id,
      a colour channel, a length or an index is an integer of [Z].
    - [undefined] is [None]: reading an array out of range gives [None], and
      an array element of a voxel grid is an [option Voxel.t] because
      [asCube] can store [undefined] in the grid it builds.
    - An exception is the [Throw] case of [JS.result]: the strings the module
      throws itself, the [TypeError] of a property read on [undefined], and
      the [RangeError] of [new Array(n)] for a length above 2^32 - 1.
    - Lengths are below 2^32, so the products of lengths the module compares
      with a length are exact where it matters: a product above 2^53 differs
      from every length, rounded or not.
    - A method that mutates [this] returns the new state next to its
      outcome. *)

From stdpp Require Import base numbers list strings.

Local Open Scope Z_scope.

(** ** The fragment of the JavaScript runtime the module relies on *)

Module JS.

Inductive exn : Type :=
| Thrown (msg : string)   (* [throw "..."] of the module itself *)
| TypeError               (* property read on [undefined] *)
| RangeError.             (* [new Array(n)] with an invalid length *)

Inductive result (A : Type) : Type :=
| Ok (a : A)
| Throw (e : exn).
Arguments Ok {A} a.
Arguments Throw {A} e.

(** Sequencing: an exception ends the evaluation. *)
Definition bind {A B} (m : result A) (f : A → result B) : result B :=
  match m with Ok a => f a | Throw e => Throw e end.

#[local] Notation "'let*' x ':=' m 'in' k" := (bind m (λ x, k))
  (at level 10, x name, m at level 100, k at level 200).

(** [l.length] *)
Definition len {A} (l : list A) : Z := Z.of_nat (length l).

(** [l[i]] for an array [l]; the index is [None] when the number is not
    an array index ([NaN], [Infinity]). *)
Definition index {A} (l : list A) (i : option Z) : option A :=
  match i with
  | Some i => if i <? 0 then None else l !! Z.to_nat i
  | None => None
  end.

(** [l[x][y][z]] when [l[x]] and [l[x][y]] are defined. *)
Definition index3 {A} (l : list (list (list A))) (x y z : Z) : option A :=
  col ← index l (Some x); row ← index col (Some y); index row (Some z).

(** A property read [o.p] or [o[i]] needs [o] to be defined. *)
Definition defined {A} (o : option A) : result A :=
  match o with Some x => Ok x | None => Throw TypeError end.

(** [Math.floor(x / c)] on integers; [x / 0] is [Infinity] or [NaN]. *)
Definition floor_div (x c : Z) : option Z :=
  if c =? 0 then None else Some (x `div` c).

(** [x % c] on integers; [x % 0] is [NaN]. *)
Definition remainder (x c : Z) : option Z :=
  if c =? 0 then None else Some (x `rem` c).

(** [a != b] and [a || b], operands evaluated from left to right, the
    right operand of [||] only when the left one is false. *)
Definition not_equal (x y : result Z) : result bool :=
  let* a := x in let* b := y in Ok (negb (a =? b)).
Definition or_else (x y : result bool) : result bool :=
  let* a := x in if a : bool then Ok true else y.

(** [new Array(n).fill(0)] *)
Definition max_length : Z := 4294967295.
Definition new_Array (n : Z) : result (list Z) :=
  if (n <? 0) || (max_length <? n) then Throw RangeError
  else Ok (replicate (Z.to_nat n) 0).

End JS.

Import JS.

Notation "'let*' x ':=' m 'in' k" := (JS.bind m (λ x, k))
  (at level 10, x name, m at level 100, k at level 200,
   format "'[v' 'let*'  x  :=  m  'in' '/' k ']'").

(** ** Array methods, for callbacks that may throw *)

Module Array.

(** [l.every(p)], [l.some(p)] and [l.filter(p)] for a callback that may
    throw. *)
Fixpoint every {A} (p : A → result bool) (l : list A) : result bool :=
  match l with
  | [] => Ok true
  | x :: l => let* t := p x in if t : bool then every p l else Ok false
  end.

Fixpoint some {A} (p : A → result bool) (l : list A) : result bool :=
  match l with
  | [] => Ok false
  | x :: l => let* t := p x in if t : bool then Ok true else some p l
  end.

Fixpoint filter {A} (p : A → result bool) (l : list A) : result (list A) :=
  match l with
  | [] => Ok []
  | x :: l =>
      let* t := p x in let* k := filter p l in
      Ok (if t : bool then x :: k else k)
  end.

(** [l.reduce(f, acc)] *)
Fixpoint reduce {A B} (f : B → A → result B) (l : list A) (acc : B)
  : result B :=
  match l with
  | [] => Ok acc
  | x :: l => let* acc' := f acc x in reduce f l acc'
  end.

(** [l.map((x, i) => f x i)]: the callback sees the element and its
    index, elements are visited in order. *)
Fixpoint map_from {A B} (f : A → Z → result B) (i : Z) (l : list A)
  : result (list B) :=
  match l with
  | [] => Ok []
  | x :: l =>
      let* y := f x i in let* k := map_from f (i + 1) l in Ok (y :: k)
  end.
Definition map {A B} (f : A → Z → result B) (l : list A) : result (list B) :=
  map_from f 0 l.

(** [l.fill(v)]: every element becomes [v] (one shared value; the module
    never writes into the arrays it fills). *)
Definition fill {A B} (v : B) (l : list A) : list B := replicate (length l) v.

(** [l.flat(2)] on an array of arrays of arrays *)
Definition flat2 {A} (l : list (list (list A))) : list A :=
  concat (concat l).

End Array.

(** ** Voxel *)

Module Voxel.

Record t : Type := mk { r : Z; g : Z; b : Z; a : Z }.

(** [constructor(r=0,g=0,b=0,a=0)]: an argument that is missing is
    [undefined] and takes its default. *)
Definition new (r g b a : option Z) : t :=
  mk (default 0 r) (default 0 g) (default 0 b) (default 0 a).

(** [new Voxel()] *)
Definition empty : t := new None None None None.

(** [get visible() { return this.a!=0 }] *)
Definition visible (v : t) : bool := negb (a v =? 0).

(** [static fromJSON(json)]: [new Voxel(...Object.values(json))]. The
    serialized voxel is [null] ([None]) or holds its values in property
    order; [Object.values(null)] is a [TypeError]. *)
Definition fromJSON (json : option (list Z)) : result t :=
  let* values := defined json in
  Ok (new (values !! 0%nat) (values !! 1%nat)
          (values !! 2%nat) (values !! 3%nat)).

(** Modelled from the spec: the serialized form of a voxel, which the
    module itself never produces (the persisted format is the plain-object
    image of the world): its four numbers in the order r, g, b, a, as
    [Object.values] lists them. *)
Definition toJSON (v : t) : list Z := [r v; g v; b v; a v].

(** The four comparisons of [Voxel.eq] on two voxels. *)
Definition eqb (x y : t) : bool :=
  (r x =? r y) && (g x =? g y) && (b x =? b y) && (a x =? a y).

(** [static eq(a,b)] on two array elements: reading [a.r] or [b.r] of
    [undefined] throws. *)
Definition eq (x y : option t) : result bool :=
  let* x := defined x in let* y := defined y in Ok (eqb x y).

End Voxel.

(** ** Cube *)

Module Cube.

Record t : Type := mk {
  name : string;
  description : string;
  vox : list (list (list (option Voxel.t)));
  author : string
}.

(** [get width() { return this.vox.length }] *)
Definition width (c : t) : Z := len (vox c).

(** [get height() { return this.vox[0].length }] *)
Definition height (c : t) : result Z :=
  let* col := defined (index (vox c) (Some 0)) in Ok (len col).

(** [get depth() { return this.vox[0][0].length }] *)
Definition depth (c : t) : result Z :=
  let* col := defined (index (vox c) (Some 0)) in
  let* row := defined (index col (Some 0)) in
  Ok (len row).

(** The three extents of a cube, when its grid has a first column and a
    first row to read them from. *)
Definition dims (c : t) : option (Z * Z * Z) :=
  col ← head (vox c); row ← head col; Some (len (vox c), len col, len row).

(** The callback of [reduce] in [voxelTypes]:
    [a.every(v => !Voxel.eq(v,c)) ? a.concat([c]) : a]. *)
Definition add_type (a : list (option Voxel.t)) (c : option Voxel.t)
  : result (list (option Voxel.t)) :=
  let* fresh :=
    Array.every (λ v, let* same := Voxel.eq v c in Ok (negb same)) a in
  if fresh : bool then Ok (a ++ [c]) else Ok a.

(** [get voxelTypes()] *)
Definition voxelTypes (c : t) : result (list Voxel.t) :=
  let* types := Array.reduce add_type (Array.flat2 (vox c)) [] in
  let* visibles :=
    Array.filter (λ vt, let* vt := defined vt in Ok (Voxel.visible vt))
      types in
  (* every element that passed the filter has been read: it is a voxel *)
  Ok (omap (λ vt : option Voxel.t, vt) visibles).

(** [map(f)]: a new cube with every voxel passed through [f] together
    with its position. *)
Definition map (f : option Voxel.t → Z → Z → Z → option Voxel.t) (c : t) : t :=
  mk (name c) (description c)
     (imap (λ i x, imap (λ j y, imap (λ k z,
        f z (Z.of_nat i) (Z.of_nat j) (Z.of_nat k)) y) x) (vox c))
     (author c).

(** The grid [map(f)] hands to the constructor, for a callback that may
    throw and may return something other than a voxel (as the one of
    [voxPairs] does). *)
Definition map_vox {B} (f : option Voxel.t → Z → Z → Z → result B) (c : t)
  : result (list (list (list B))) :=
  Array.map (λ x i, Array.map (λ y j, Array.map (λ z k, f z i j k) y) x)
    (vox c).

(** [get voxPairs()]: for every voxel type, the mask of the positions
    that hold it, paired with the type. *)
Definition voxPairs (c : t)
  : result (list (list (list (list bool)) * Voxel.t)) :=
  let* types := voxelTypes c in
  Array.map (λ voxeltype _,
      let* mask := map_vox (λ v _ _ _, Voxel.eq v (Some voxeltype)) c in
      Ok (mask, voxeltype))
    types.

(** [static empty(x,y,z)] *)
Definition empty (x y z : Z) : result t :=
  let* vox :=
    let* xs := new_Array x in
    Array.map (λ _ _,
      let* ys := new_Array y in
      Array.map (λ _ _,
        let* zs := new_Array z in
        Array.map (λ _ _, Ok (Some Voxel.empty)) zs) ys) xs in
  Ok (mk "" "" vox "").

(** A serialized cube: the fields of the persisted format. *)
Record json : Type := mkJson {
  json_name : string;
  json_description : string;
  json_vox : list (list (list (option (list Z))));
  json_author : string
}.

(** Modelled from the spec: the serialized form of a cube, field by
    field; an [undefined] element of the grid is serialized as [null]. *)
Definition toJSON (c : t) : json :=
  mkJson (name c) (description c)
    ((λ col : list (list (option Voxel.t)),
        (λ row : list (option Voxel.t),
           (λ v : option Voxel.t, Voxel.toJSON <$> v) <$> row) <$> col)
       <$> vox c)
    (author c).

(** Every element of the grid is a voxel. *)
Definition all_voxels (c : t) : Prop :=
  Forall (Forall (Forall is_Some)) (vox c).

(** [static fromJSON(json)] *)
Definition fromJSON (j : json) : result t :=
  let* vox :=
    Array.map (λ x _, Array.map (λ y _, Array.map (λ v _,
        let* v := Voxel.fromJSON v in Ok (Some v)) y) x) (json_vox j) in
  Ok (mk (json_name j) (json_description j) vox (json_author j)).

End Cube.

(** ** World *)

Module World.

Record t : Type := mk {
  name : string;
  description : string;
  cube : list Cube.t;
  space : list (list (list Z));
  author : string
}.

Definition no_block : exn :=
  Thrown "No block defined yet, therefor no cube dimensions present".

(** [get cubeWidth()], [get cubeHeight()], [get cubeDepth()] *)
Definition cubeWidth (w : t) : result Z :=
  if 0 <? len (cube w)
  then let* c := defined (index (cube w) (Some 0)) in Ok (Cube.width c)
  else Throw no_block.

Definition cubeHeight (w : t) : result Z :=
  if 0 <? len (cube w)
  then let* c := defined (index (cube w) (Some 0)) in Cube.height c
  else Throw no_block.

Definition cubeDepth (w : t) : result Z :=
  if 0 <? len (cube w)
  then let* c := defined (index (cube w) (Some 0)) in Cube.depth c
  else Throw no_block.

(** [get width() { return this.space.length }] *)
Definition width (w : t) : Z := len (space w).

(** [get height() { return this.space[0].length }] *)
Definition height (w : t) : result Z :=
  let* col := defined (index (space w) (Some 0)) in Ok (len col).

(** [get depth() { return this.space[0][0].length }] *)
Definition depth (w : t) : result Z :=
  let* col := defined (index (space w) (Some 0)) in
  let* row := defined (index col (Some 0)) in
  Ok (len row).

(** The three extents of the space, when it has a first column and a
    first row to read them from. *)
Definition extents (w : t) : option (Z * Z * Z) :=
  col ← head (space w); row ← head col;
  Some (len (space w), len col, len row).

(** A world all of whose extents can be read: the space and every cube
    of the palette have a first column and a first row. *)
Definition valid (w : t) : Prop :=
  is_Some (extents w) ∧ Forall (λ c, is_Some (Cube.dims c)) (cube w).

(** The callback of [some] in [integrity]:
    [c.width != this.cubeWidth || c.height != this.cubeHeight
     || c.depth != this.cubeDepth]. *)
Definition unequal_size (w : t) (c : Cube.t) : result bool :=
  JS.or_else (JS.not_equal (Ok (Cube.width c)) (cubeWidth w))
 (JS.or_else (JS.not_equal (Cube.height c) (cubeHeight w))
        (JS.not_equal (Cube.depth c) (cubeDepth w))).

(** [get integrity()] *)
Definition integrity (w : t) : result bool :=
  let* h := height w in
  let* d := depth w in
  if negb (width w * h * d =? len (Array.flat2 (space w)))
  then Throw (Thrown "The space has unequal dimensionality")
  else
    let* unequal :=
      if 0 <? len (cube w)
      then Array.some (unequal_size w) (cube w)
      else Ok false in
    if unequal : bool
    then Throw (Thrown "The cubes have unequal sizes")
    else Ok true.

(** The two conditions [integrity] checks, as the specification words
    them: the flattened length of the space is the product of its
    extents, and every cube of the palette has the extents of the first
    one. *)
Definition same_count (w : t) : Prop :=
  ∃ h d, height w = Ok h ∧ depth w = Ok d ∧
         len (Array.flat2 (space w)) = width w * h * d.

Definition same_sizes (w : t) : Prop :=
  ∀ c0, head (cube w) = Some c0 →
    Forall (λ c, Cube.width c = Cube.width c0 ∧
                 Cube.height c = Cube.height c0 ∧
                 Cube.depth c = Cube.depth c0) (cube w).

(** The callback of the innermost [map] of [asCube]: the element of the
    dense grid at [(x, y, z)]. *)
Definition asCube_voxel (w : t) (x y z : Z) : result (option Voxel.t) :=
  let* id :=
    let* cw := cubeWidth w in
    let col := index (space w) (floor_div x cw) in
    let* ch := cubeHeight w in
    let* col := defined col in
    let row := index col (floor_div y ch) in
    let* cw := cubeWidth w in
    let* row := defined row in
    Ok (index row (floor_div z cw)) in
  if bool_decide (id = Some 0)
  then Ok (Some Voxel.empty)
  else
    let* c := defined (index (cube w) ((λ id, id - 1) <$> id)) in
    let* cw := cubeWidth w in
    let col := index (Cube.vox c) (remainder x cw) in
    let* ch := cubeHeight w in
    let* col := defined col in
    let row := index col (remainder y ch) in
    let* cw := cubeWidth w in
    let* row := defined row in
    Ok (mjoin (index row (remainder z cw))).

(** [get asCube()] *)
Definition asCube (w : t) : result Cube.t :=
  let* ok := integrity w in
  if negb ok
  then Throw (Thrown "Integrtity Error: Build failed")
  else
    let* vox :=
      let* cw := cubeWidth w in
      let* xs := new_Array (cw * width w) in
      Array.map (λ _ x,
        let* ch := cubeHeight w in
        let* h := height w in
        let* ys := new_Array (ch * h) in
        Array.map (λ _ y,
          let* cd := cubeDepth w in
          let* d := depth w in
          let* zs := new_Array (cd * d) in
          Array.map (λ _ z, asCube_voxel w x y z) zs) ys) xs in
    Ok (Cube.mk (name w) (description w) vox (author w)).

(** The element at [(x, y, z)] in the words of the specification's note
    on the z axis: the id is read at
    [space[floor(x/cw)][floor(y/ch)][floor(z/cw)]] and, when it is not 0,
    the voxel at [vox[x%cw][y%ch][z%cw]] of the cube with that id, for
    the width [cw] and the height [ch] of the palette cubes; the depth
    takes no part. *)
Definition voxel_by_width (w : t) (cw ch : Z) (x y z : Z)
  : result (option Voxel.t) :=
  let* col := defined (index (space w) (Some (x `div` cw))) in
  let* row := defined (index col (Some (y `div` ch))) in
  let id := index row (Some (z `div` cw)) in
  if bool_decide (id = Some 0)
  then Ok (Some Voxel.empty)
  else
    let* c := defined (index (cube w) ((λ id, id - 1) <$> id)) in
    let* col := defined (index (Cube.vox c) (Some (x `rem` cw))) in
    let* row := defined (index col (Some (y `rem` ch))) in
    Ok (mjoin (index row (Some (z `rem` cw)))).

(** The element at [(x, y, z)] when every axis is divided by the cube
    dimension of that axis, as the specification describes the expansion
    before its note on the z axis: the depth [cd] serves the z axis. *)
Definition voxel_by_depth (w : t) (cw ch cd : Z) (x y z : Z)
  : result (option Voxel.t) :=
  let* col := defined (index (space w) (Some (x `div` cw))) in
  let* row := defined (index col (Some (y `div` ch))) in
  let id := index row (Some (z `div` cd)) in
  if bool_decide (id = Some 0)
  then Ok (Some Voxel.empty)
  else
    let* c := defined (index (cube w) ((λ id, id - 1) <$> id)) in
    let* col := defined (index (Cube.vox c) (Some (x `rem` cw))) in
    let* row := defined (index col (Some (y `rem` ch))) in
    Ok (mjoin (index row (Some (z `rem` cd)))).

(** The callback of [reduce] in [voxelTypes]:
    [a.concat(c.filter(x => !a.some(y => Voxel.eq(x,y))))]. *)
Definition add_types (a c : list Voxel.t) : result (list Voxel.t) :=
  let* fresh :=
    Array.filter (λ x,
      let* seen := Array.some (λ y, Voxel.eq (Some x) (Some y)) a in
      Ok (negb seen)) c in
  Ok (a ++ fresh).

(** [get voxelTypes()] *)
Definition voxelTypes (w : t) : result (list Voxel.t) :=
  let* types := Array.map (λ c _, Cube.voxelTypes c) (cube w) in
  Array.reduce add_types types [].

(** [this.cube.push(cube)] *)
Definition push (w : t) (c : Cube.t) : t :=
  mk (name w) (description w) (cube w ++ [c]) (space w) (author w).

(** [addCube(cube)]: the world after the call and the outcome of the
    call; [this.cube.push(cube)] is the only mutation. *)
Definition addCube (w : t) (c : Cube.t) : t * result unit :=
  let check : result unit :=
    if negb (len (cube w) =? 0)
    then
      let* differ :=
        JS.or_else (JS.not_equal (cubeWidth w) (Ok (Cube.width c)))
       (JS.or_else (JS.not_equal (cubeHeight w) (Cube.height c))
              (JS.not_equal (cubeDepth w) (Cube.depth c))) in
      if differ : bool
      then Throw
             (Thrown "cube dimensions do not confrom to other cubes dimensions")
      else Ok ()
    else Ok () in
  match check with
  | Ok _ => (push w c, Ok ())
  | Throw e => (w, Throw e)
  end.

(** The new cube differs in width, height or depth from the first cube
    of a non-empty palette. *)
Definition misfit (w : t) (c : Cube.t) : Prop :=
  ∃ c0, head (cube w) = Some c0 ∧ Cube.dims c ≠ Cube.dims c0.

(** [map(f)]: the constructor is called with four arguments, so the
    author of the new world is the default [''] of the constructor. *)
Definition map (f : Z → Z → Z → Z → Z) (w : t) : t :=
  mk (name w) (description w) (cube w)
     (imap (λ i x, imap (λ j y, imap (λ k z,
        f z (Z.of_nat i) (Z.of_nat j) (Z.of_nat k)) y) x) (space w))
     "".

(** [static empty(x,y,z)]: the three arrays are created from the outside
    in, and each is filled with the next one. The columns are one array
    and the rows are one array; the embedding keeps their values, which is
    all the module reads: no function of the module writes to a space. *)
Definition empty (x y z : Z) : result t :=
  let* xs := new_Array x in
  let* ys := new_Array y in
  let* zs := new_Array z in
  Ok (mk "" "" [] (Array.fill (Array.fill zs ys) xs) "").

(** A serialized world: the fields of the persisted format. *)
Record json : Type := mkJson {
  json_name : string;
  json_description : string;
  json_cube : list Cube.json;
  json_space : list (list (list Z));
  json_author : string
}.

(** Modelled from the spec: the serialized form of a world, field by
    field. *)
Definition toJSON (w : t) : json :=
  mkJson (name w) (description w) (Cube.toJSON <$> cube w) (space w)
    (author w).

(** [static fromJSON(json)] *)
Definition fromJSON (j : json) : result t :=
  let* cube := Array.map (λ c _, Cube.fromJSON c) (json_cube j) in
  Ok (mk (json_name j) (json_description j) cube (json_space j)
         (json_author j)).

End World.

(** ** The editor menu *)

Module Menu.

(** What the click handler of the "new cube" button does to the world of
    the menu: [this.world.addCube(Cube.empty(this.world.cubeWidth,
    this.world.cubeHeight, this.world.cubeDepth))]. The handler also logs
    the world and refreshes the cube picker of the page, which are not
    part of the embedding. *)
Definition newCube (w : World.t) : World.t * result unit :=
  let cube :=
    let* x := World.cubeWidth w in
    let* y := World.cubeHeight w in
    let* z := World.cubeDepth w in
    Cube.empty x y z in
  match cube with
  | Ok c => World.addCube w c
  | Throw e => (w, Throw e)
  end.

End Menu.

(** ** Deduplication, as the specification words it *)

#[global] Instance Voxel_eq_dec : EqDecision Voxel.t.
Proof. solve_decision. Defined.

(** Deduplication in first-seen order, as the specification words
    [voxelTypes]: a value stays where it is first seen in the scan and its
    later occurrences are dropped. *)
Fixpoint first_seen (l : list Voxel.t) : list Voxel.t :=
  match l with
  | [] => []
  | x :: l => x :: filter (λ y, y ≠ x) (first_seen l)
  end.

(** No two entries are equal channel by channel. *)
Definition distinct (l : list Voxel.t) : Prop :=
  ∀ (i j : nat) x y, i ≠ j → l !! i = Some x → l !! j = Some y →
    Voxel.eqb x y = false.

(** ** Grids and array lengths, for the statements *)

(** The three nested [map]s of [World.map] and [Cube.map]: [f] at every
    element of a grid, together with the position of the element. *)
Definition map3 {A B} (f : A → Z → Z → Z → B) (l : list (list (list A)))
  : list (list (list B)) :=
  imap (λ i x, imap (λ j y, imap (λ k z,
    f z (Z.of_nat i) (Z.of_nat j) (Z.of_nat k)) y) x) l.

(** [new Voxel(...values)]: the voxel [Voxel.fromJSON] builds from the
    values of a serialized voxel. *)
Definition voxel_of_values (values : list Z) : Voxel.t :=
  Voxel.new (values !! 0%nat) (values !! 1%nat)
            (values !! 2%nat) (values !! 3%nat).

(** [n] is an array length: [new Array(n)] returns. *)
Definition array_length (n : Z) : bool := (0 <=? n) && (n <=? max_length).

(** The grid of [x * y * z] default voxels. *)
Definition empty_grid (x y z : Z) : list (list (list (option Voxel.t))) :=
  replicate (Z.to_nat x)
    (replicate (Z.to_nat y) (replicate (Z.to_nat z) (Some Voxel.empty))).


(** * Properties *)

(** ** The runtime fragment *)

Lemma bind_Ok_inv {A B} (m : result A) (f : A → result B) (b : B) :
  JS.bind m f = Ok b → ∃ a, m = Ok a ∧ f a = Ok b.
Proof. destruct m as [a|e]; simpl; [eauto | discriminate]. Qed.

Section runtime.
Context {A B : Type}.

Lemma index_0 (l : list A) : index l (Some 0) = head l.
Proof. by destruct l. Qed.

Lemma index_nat (l : list A) (n : nat) :
  index l (Some (Z.of_nat n)) = l !! n.
Proof.
  unfold index. destruct (Z.ltb_spec (Z.of_nat n) 0); [lia|].
  by rewrite Nat2Z.id.
Qed.

Lemma index_Some (l : list A) (i : Z) (x : A) :
  index l (Some i) = Some x ↔ 0 ≤ i ∧ l !! Z.to_nat i = Some x.
Proof.
  unfold index. destruct (Z.ltb_spec i 0).
  - split; [done | intros [? _]; lia].
  - split; [by split | by intros [_ ?]].
Qed.

Lemma some_false (p : A → result bool) (l : list A) :
  Array.some p l = Ok false ↔ Forall (λ x, p x = Ok false) l.
Proof.
  induction l as [|x l IH]; simpl.
  - split; [constructor | done].
  - rewrite Forall_cons, <- IH.
    destruct (p x) as [[]|e]; simpl; intuition congruence.
Qed.

Lemma some_total (p : A → result bool) (l : list A) :
  Forall (λ x, ∃ t, p x = Ok t) l → ∃ t, Array.some p l = Ok t.
Proof.
  induction 1 as [|x l [t Hx] _ IH]; simpl; [eauto|].
  rewrite Hx; simpl. destruct t; eauto.
Qed.



Lemma map_from_Ok (f : A → Z → result B) (i : Z) (l : list A) out :
  Array.map_from f i l = Ok out →
  length out = length l ∧
  ∀ (n : nat) x, l !! n = Some x →
    ∃ y, out !! n = Some y ∧ f x (i + Z.of_nat n) = Ok y.
Proof.
  revert i out. induction l as [|x l IH]; intros i out; simpl.
  - intros [= <-]. split; [done | by intros ? ? ?].
  - intros (y & Hy & (k & Hk & [= <-])%bind_Ok_inv)%bind_Ok_inv.
    destruct (IH _ _ Hk) as [Hlen Hlook]. split; [simpl; by f_equal|].
    intros [|n] x'; simpl.
    + intros [= <-]. exists y. by rewrite Z.add_0_r.
    + intros Hn. destruct (Hlook n x' Hn) as (y' & ? & Hy').
      exists y'. split; [done|].
      by replace (i + Z.of_nat (S n)) with (i + 1 + Z.of_nat n) by lia.
Qed.

Lemma map_Ok (f : A → Z → result B) (l : list A) out :
  Array.map f l = Ok out →
  length out = length l ∧
  ∀ (n : nat) x, l !! n = Some x →
    ∃ y, out !! n = Some y ∧ f x (Z.of_nat n) = Ok y.
Proof. apply map_from_Ok. Qed.

Lemma map_from_total (f : A → Z → result B) (i : Z) (l : list A) :
  (∀ (n : nat) x, l !! n = Some x → ∃ y, f x (i + Z.of_nat n) = Ok y) →
  ∃ out, Array.map_from f i l = Ok out.
Proof.
  revert i. induction l as [|x l IH]; intros i Hf; simpl; [eauto|].
  destruct (Hf 0%nat x eq_refl) as [y Hy].
  rewrite Z.add_0_r in Hy. rewrite Hy; simpl.
  destruct (IH (i + 1)) as [k ->]; simpl; [|eauto].
  intros n x' Hn. destruct (Hf (S n) x' Hn) as [y' Hy'].
  exists y'. by replace (i + 1 + Z.of_nat n) with (i + Z.of_nat (S n)) by lia.
Qed.

Lemma map_total (f : A → Z → result B) (l : list A) :
  (∀ (n : nat) x, l !! n = Some x → ∃ y, f x (Z.of_nat n) = Ok y) →
  ∃ out, Array.map f l = Ok out.
Proof. intros Hf. apply map_from_total. intros n x Hn. by apply Hf. Qed.

End runtime.

Lemma floor_div_nonzero (x c : Z) : c ≠ 0 → floor_div x c = Some (x `div` c).
Proof. unfold floor_div. by destruct (Z.eqb_spec c 0). Qed.

Lemma remainder_nonzero (x c : Z) : c ≠ 0 → remainder x c = Some (x `rem` c).
Proof. unfold remainder. by destruct (Z.eqb_spec c 0). Qed.

Lemma new_Array_Ok (n : Z) (xs : list Z) :
  new_Array n = Ok xs →
  0 ≤ n ≤ max_length ∧ xs = replicate (Z.to_nat n) 0.
Proof.
  unfold new_Array.
  destruct (Z.ltb_spec n 0); [done|].
  destruct (Z.ltb_spec max_length n); [done|].
  intros [= <-]. by split.
Qed.

(** ** Reading extents *)

Ltac read_heads :=
  repeat match goal with
  | |- context [head ?l] =>
      let E := fresh "E" in
      destruct (head l) eqn:E; cbn [JS.bind JS.defined mbind option_bind];
      rewrite ?index_0
  end.

Ltac solve_heads :=
  split;
  [ intros; simplify_eq; eauto 10
  | intros; repeat match goal with
            | H : _ ∧ _ |- _ => destruct H
            | H : ∃ _, _ |- _ => destruct H
            end; simplify_eq; eauto ].

Lemma Cube_height_dims (c : Cube.t) (h : Z) :
  Cube.height c = Ok h ↔ ∃ col, head (Cube.vox c) = Some col ∧ h = len col.
Proof. unfold Cube.height. rewrite index_0. read_heads; solve_heads. Qed.

Lemma Cube_depth_dims (c : Cube.t) (d : Z) :
  Cube.depth c = Ok d ↔
  ∃ col row, head (Cube.vox c) = Some col ∧ head col = Some row ∧ d = len row.
Proof. unfold Cube.depth. rewrite index_0. read_heads; solve_heads. Qed.

Lemma Cube_dims_Some (c : Cube.t) (wd h d : Z) :
  Cube.dims c = Some (wd, h, d) ↔
  Cube.width c = wd ∧ Cube.height c = Ok h ∧ Cube.depth c = Ok d.
Proof.
  unfold Cube.dims, Cube.width, Cube.height, Cube.depth. rewrite index_0.
  read_heads; solve_heads.
Qed.

Lemma World_extents_Some (w : World.t) (wd h d : Z) :
  World.extents w = Some (wd, h, d) ↔
  World.width w = wd ∧ World.height w = Ok h ∧ World.depth w = Ok d.
Proof.
  unfold World.extents, World.width, World.height, World.depth.
  rewrite index_0. read_heads; solve_heads.
Qed.

(** The getters of the palette dimensions on a non-empty palette. *)
Lemma World_cubeWidth_cons (w : World.t) c0 rest :
  World.cube w = c0 :: rest → World.cubeWidth w = Ok (Cube.width c0).
Proof. unfold World.cubeWidth. by intros ->. Qed.

Lemma World_cubeHeight_cons (w : World.t) c0 rest :
  World.cube w = c0 :: rest → World.cubeHeight w = Cube.height c0.
Proof. unfold World.cubeHeight. by intros ->. Qed.

Lemma World_cubeDepth_cons (w : World.t) c0 rest :
  World.cube w = c0 :: rest → World.cubeDepth w = Cube.depth c0.
Proof. unfold World.cubeDepth. by intros ->. Qed.

Lemma World_cube_getters_nil (w : World.t) :
  World.cube w = [] →
  World.cubeWidth w = Throw World.no_block ∧
  World.cubeHeight w = Throw World.no_block ∧
  World.cubeDepth w = Throw World.no_block.
Proof.
  unfold World.cubeWidth, World.cubeHeight, World.cubeDepth. by intros ->.
Qed.

(** ** The integrity check *)

Lemma unequal_size_dims (w : World.t) c0 rest c wd0 h0 d0 wd h d :
  World.cube w = c0 :: rest →
  Cube.dims c0 = Some (wd0, h0, d0) →
  Cube.dims c = Some (wd, h, d) →
  World.unequal_size w c
  = Ok (negb (wd =? wd0) || negb (h =? h0) || negb (d =? d0)).
Proof.
  intros Hc (Hw0 & Hh0 & Hd0)%Cube_dims_Some (Hw & Hh & Hd)%Cube_dims_Some.
  unfold World.unequal_size.
  rewrite (World_cubeWidth_cons _ _ _ Hc), (World_cubeHeight_cons _ _ _ Hc),
    (World_cubeDepth_cons _ _ _ Hc), Hw0, Hh0, Hd0, Hw, Hh, Hd.
  unfold JS.or_else, JS.not_equal; simpl.
  by destruct (wd =? wd0), (h =? h0), (d =? d0).
Qed.

(** Under the first two checks the integrity check is the palette check. *)
Lemma integrity_unfold (w : World.t) wd h d :
  World.extents w = Some (wd, h, d) →
  World.integrity w =
    if negb (wd * h * d =? len (Array.flat2 (World.space w)))
    then Throw (Thrown "The space has unequal dimensionality")
    else match World.cube w with
         | [] => Ok true
         | _ :: _ =>
             let* unequal := Array.some (World.unequal_size w) (World.cube w) in
             if unequal : bool
             then Throw (Thrown "The cubes have unequal sizes")
             else Ok true
         end.
Proof.
  intros (Hw & Hh & Hd)%World_extents_Some.
  unfold World.integrity. rewrite Hh, Hd, Hw; simpl.
  destruct (negb _); [done|]. by destruct (World.cube w).
Qed.

Lemma integrity_extents_None (w : World.t) :
  World.extents w = None → World.integrity w = Throw TypeError.
Proof.
  unfold World.integrity, World.extents, World.height, World.depth.
  rewrite index_0. read_heads; intros; by simplify_eq.
Qed.

Lemma palette_check (w : World.t) c0 rest :
  World.cube w = c0 :: rest →
  Forall (λ c, is_Some (Cube.dims c)) (World.cube w) →
  ∃ t, Array.some (World.unequal_size w) (World.cube w) = Ok t ∧
       (t = false ↔ World.same_sizes w).
Proof.
  intros Hc Hdims.
  assert (is_Some (Cube.dims c0)) as [[[wd0 h0] d0] H0].
  { rewrite Hc in Hdims. by apply Forall_cons in Hdims as [? _]. }
  assert (∀ c, c ∈ World.cube w → ∃ wd h d,
    Cube.dims c = Some (wd, h, d) ∧
    World.unequal_size w c
    = Ok (negb (wd =? wd0) || negb (h =? h0) || negb (d =? d0))) as Hcb.
  { intros c Hin. rewrite Forall_forall in Hdims.
    destruct (Hdims c Hin) as [[[wd h] d] Hd].
    exists wd, h, d. split; [done|]. by eapply unequal_size_dims. }
  destruct (some_total (World.unequal_size w) (World.cube w)) as [t Ht].
  { apply Forall_forall. intros c Hin.
    destruct (Hcb c Hin) as (? & ? & ? & _ & ->). eauto. }
  exists t. split; [done|].
  transitivity (Array.some (World.unequal_size w) (World.cube w) = Ok false).
  { rewrite Ht. split; [by intros -> | by intros [= ->]]. }
  rewrite some_false. unfold World.same_sizes.
  assert (head (World.cube w) = Some c0) as Hhead by (by rewrite Hc).
  apply Cube_dims_Some in H0 as (Hw0 & Hh0 & Hd0).
  split.
  - intros Hall c0' Hhead'. rewrite Hhead in Hhead'. injection Hhead' as <-.
    apply Forall_forall. intros c Hin.
    rewrite Forall_forall in Hall. specialize (Hall c Hin).
    destruct (Hcb c Hin) as (wd & h & d & (Hw & Hh & Hd)%Cube_dims_Some & Hu).
    rewrite Hu in Hall. injection Hall as Hall.
    rewrite Hw0, Hh0, Hd0, Hw, Hh, Hd.
    apply orb_false_elim in Hall as [[Ha Hb]%orb_false_elim Hc'].
    apply negb_false_iff, Z.eqb_eq in Ha, Hb, Hc'. by subst.
  - intros Hall. specialize (Hall c0 Hhead).
    apply Forall_forall. intros c Hin.
    rewrite Forall_forall in Hall. destruct (Hall c Hin) as (Ha & Hb & Hc').
    destruct (Hcb c Hin) as (wd & h & d & (Hw & Hh & Hd)%Cube_dims_Some & ->).
    rewrite Hw0 in Ha. rewrite Hh0, Hh in Hb. rewrite Hd0, Hd in Hc'.
    injection Hb as ->. injection Hc' as ->. rewrite <- Hw, Ha.
    by rewrite !Z.eqb_refl.
Qed.

(** C2. On a world whose extents can all be read, the integrity check
    returns [true] exactly when the flattened length of the space is
    [width * height * depth] and every cube of the palette has the width,
    height and depth of the first one; when one of the two fails it does
    not return [false] but throws the message of the check that failed. *)
Theorem integrity_iff (w : World.t) :
  World.valid w →
  (World.integrity w = Ok true ↔ World.same_count w ∧ World.same_sizes w) ∧
  (¬ World.same_count w →
     World.integrity w = Throw (Thrown "The space has unequal dimensionality")) ∧
  (World.same_count w → ¬ World.same_sizes w →
     World.integrity w = Throw (Thrown "The cubes have unequal sizes")).
Proof.
  intros [[[[wd h] d] Hext] Hdims].
  pose proof (integrity_unfold _ _ _ _ Hext) as Hint.
  pose proof Hext as (Hw & Hh & Hd)%World_extents_Some.
  assert (World.same_count w ↔ len (Array.flat2 (World.space w)) = wd * h * d)
    as Hcount.
  { unfold World.same_count. rewrite Hh, Hd, Hw. split.
    - by intros (? & ? & [= <-] & [= <-] & ?).
    - eauto. }
  rewrite Hcount.
  destruct (Z.eqb_spec (wd * h * d) (len (Array.flat2 (World.space w))))
    as [Heq|Hne]; simpl in Hint.
  - destruct (World.cube w) as [|c0 rest] eqn:Hc.
    + assert (World.same_sizes w) by (unfold World.same_sizes; by rewrite Hc).
      rewrite Hint. split_and!; [done | done | done].
    + destruct (palette_check w c0 rest Hc) as (t & Ht & Hiff);
        [by rewrite Hc|].
      rewrite <- Hc in Hint. rewrite Ht in Hint; simpl in Hint.
      rewrite Hint. destruct t.
      * assert (¬ World.same_sizes w) by (intros ?%Hiff; done).
        split_and!; [split; [done | tauto] | done | done].
      * assert (World.same_sizes w) by by apply Hiff.
        split_and!; [done | done | done].
  - rewrite Hint. split_and!.
    + split; [done | by intros [? _]].
    + done.
    + done.
Qed.

Lemma integrity_iff_witness :
  let unit_cube := Cube.mk "" "" [[[Some Voxel.empty]]] "" in
  let w := World.mk "w" "" [unit_cube; unit_cube] [[[1; 2]]] "" in
  World.valid w ∧ World.integrity w = Ok true ∧
  World.same_count w ∧ World.same_sizes w.
Proof.
  intros unit_cube w.
  assert (World.valid w) as Hv.
  { split; [by eexists | repeat constructor; by eexists]. }
  split; [exact Hv|]. split; [reflexivity|].
  by apply (proj1 (integrity_iff w Hv)).
Defined.

(** ** Adding a cube to the palette *)

(** X4. Whatever [addCube] throws, it throws before the palette is
    touched: the world is left as it was. *)
Lemma addCube_atomic (w : World.t) (c : Cube.t) (e : exn) :
  (World.addCube w c).2 = Throw e → (World.addCube w c).1 = w.
Proof. unfold World.addCube. by destruct (if negb _ then _ else _). Qed.

Lemma addCube_atomic_witness :
  let unit_cube := Cube.mk "" "" [[[Some Voxel.empty]]] "" in
  let no_cube := Cube.mk "" "" [] "" in
  let w := World.mk "" "" [unit_cube] [[[0]]] "" in
  (World.addCube w no_cube).1 = w.
Proof.
  intros unit_cube no_cube w.
  by apply (addCube_atomic w no_cube
              (Thrown "cube dimensions do not confrom to other cubes dimensions")).
Defined.

(** C6 as stated fails on a cube without extents, such as the one
    [Cube.empty(0,0,0)] builds: added to a palette that holds the very same
    cube, so that no dimension differs, [addCube] still throws, a
    [TypeError] from reading the height. *)
Lemma addCube_no_extents :
  let no_cube := Cube.mk "" "" [] "" in
  let w := World.mk "" "" [no_cube] [[[0]]] "" in
  head (World.cube w) = Some no_cube ∧
  World.addCube w no_cube = (w, Throw TypeError).
Proof. by split. Qed.

(** C6, as the code has it. For a cube and a first palette cube whose
    extents can be read, [addCube] throws exactly when the palette is not
    empty and the width, height or depth of the cube differs from that of
    the first cube of the palette, and then leaves the world as it was;
    otherwise it appends the cube to the palette. *)
Theorem addCube_raises_iff (w : World.t) (c : Cube.t) :
  is_Some (Cube.dims c) →
  (∀ c0, head (World.cube w) = Some c0 → is_Some (Cube.dims c0)) →
  (World.misfit w c →
     World.addCube w c =
       (w, Throw (Thrown
          "cube dimensions do not confrom to other cubes dimensions"))) ∧
  (¬ World.misfit w c → World.addCube w c = (World.push w c, Ok ())).
Proof.
  intros [[[wd h] d] Hc] Hfirst. unfold World.misfit, World.addCube.
  destruct (World.cube w) as [|c0 rest] eqn:Hw; simpl.
  - split; [by intros (? & ? & _) | done].
  - destruct (Hfirst c0 eq_refl) as [[[wd0 h0] d0] Hc0].
    unfold World.cubeWidth, World.cubeHeight, World.cubeDepth.
    rewrite Hw; simpl.
    pose proof Hc as (Ew & -> & ->)%Cube_dims_Some.
    pose proof Hc0 as (Ew0 & -> & ->)%Cube_dims_Some.
    rewrite Ew, Ew0. unfold JS.or_else, JS.not_equal; simpl.
    assert (Cube.dims c ≠ Cube.dims c0 ↔ ¬ (wd0 = wd ∧ h0 = h ∧ d0 = d))
      as Hne.
    { rewrite Hc, Hc0. split.
      - intros Hn (-> & -> & ->). by apply Hn.
      - intros Hn [= -> -> ->]. by apply Hn. }
    destruct (Z.eqb_spec wd0 wd); simpl;
      [destruct (Z.eqb_spec h0 h); simpl;
        [destruct (Z.eqb_spec d0 d); simpl|]|].
    1: split; [intros (? & [= <-] & Hn%Hne); tauto | done].
    all: split; [done|]; intros Hn; destruct Hn;
      exists c0; split; [done | apply Hne; tauto].
Qed.

Lemma addCube_raises_iff_witness :
  let unit_cube := Cube.mk "" "" [[[Some Voxel.empty]]] "" in
  let flat_cube := Cube.mk "" "" [[[Some Voxel.empty; Some Voxel.empty]]] "" in
  let w := World.mk "" "" [unit_cube] [[[0]]] "" in
  World.addCube w flat_cube =
    (w, Throw (Thrown
       "cube dimensions do not confrom to other cubes dimensions")) ∧
  World.addCube w unit_cube = (World.push w unit_cube, Ok ()).
Proof.
  intros unit_cube flat_cube w. split.
  - apply (addCube_raises_iff w flat_cube); [by eexists | |].
    + intros c0 [= <-]. by eexists.
    + exists unit_cube. split; [done | discriminate].
  - apply (addCube_raises_iff w unit_cube); [by eexists | |].
    + intros c0 [= <-]. by eexists.
    + intros (c0 & [= <-] & Hne). by apply Hne.
Defined.

(** ** Expansion needs integrity and a palette *)

Lemma asCube_integrity_Throw (w : World.t) (e : exn) :
  World.integrity w = Throw e → World.asCube w = Throw e.
Proof. unfold World.asCube. by intros ->. Qed.

Lemma asCube_Ok_integrity (w : World.t) (c : Cube.t) :
  World.asCube w = Ok c → World.integrity w = Ok true.
Proof.
  unfold World.asCube. destruct (World.integrity w) as [[]|]; by simpl.
Qed.

Lemma asCube_nil (w : World.t) :
  World.cube w = [] →
  World.asCube w = match World.integrity w with
                   | Ok true => Throw World.no_block
                   | Ok false => Throw (Thrown "Integrtity Error: Build failed")
                   | Throw e => Throw e
                   end.
Proof.
  intros Hnil. unfold World.asCube.
  destruct (World.integrity w) as [[]|]; simpl; [|done..].
  by rewrite (proj1 (World_cube_getters_nil w Hnil)).
Qed.

(** X3. The integrity check never returns [false]: it returns [true] or
    throws. *)
Lemma integrity_not_false (w : World.t) : World.integrity w ≠ Ok false.
Proof.
  unfold World.integrity.
  destruct (World.height w); simpl; [|done].
  destruct (World.depth w); simpl; [|done].
  destruct (negb _); [done|].
  destruct (if 0 <? _ then _ else _) as [[]|]; by simpl.
Qed.

(** C7. [asCube] throws whatever the integrity check throws, it throws on
    an empty palette whose space holds an id other than 0 (no property of
    the ids is used: the palette dimensions are read first), and a cube is
    returned only for a world that passes the integrity check. *)
Theorem asCube_requires_integrity (w : World.t) :
  (∀ e, World.integrity w = Throw e → World.asCube w = Throw e) ∧
  (World.cube w = [] →
   (∃ id, id ∈ Array.flat2 (World.space w) ∧ id ≠ 0) →
   ∃ e, World.asCube w = Throw e) ∧
  (∀ c, World.asCube w = Ok c → World.integrity w = Ok true).
Proof.
  split_and!.
  - apply asCube_integrity_Throw.
  - intros Hnil _. rewrite (asCube_nil w Hnil).
    destruct (World.integrity w) as [[]|]; eauto.
  - apply asCube_Ok_integrity.
Qed.

(** C10, as the code has it. On an empty palette [asCube] never returns a
    cube: when the integrity check passes it throws the "no block defined"
    error of [cubeWidth] before any id is read, and when the integrity
    check throws, that error is the one raised. *)
Theorem asCube_empty_palette (w : World.t) :
  World.cube w = [] →
  (World.integrity w = Ok true → World.asCube w = Throw World.no_block) ∧
  (∀ e, World.integrity w = Throw e → World.asCube w = Throw e) ∧
  (∀ c, World.asCube w ≠ Ok c).
Proof.
  intros Hnil. rewrite (asCube_nil w Hnil). split_and!.
  - by intros ->.
  - by intros e ->.
  - intros c. destruct (World.integrity w) as [[]|]; done.
Qed.

Lemma asCube_empty_palette_witness :
  let w := World.mk "" "" [] [[[0]]] "" in
  World.cube w = [] ∧ World.integrity w = Ok true ∧
  World.asCube w = Throw World.no_block.
Proof.
  intros w. split_and!; [reflexivity | reflexivity |].
  apply (proj1 (asCube_empty_palette w eq_refl)). reflexivity.
Defined.

(** C10 as stated fails: with an empty palette and a space that fails the
    integrity check, the error is the one of the integrity check. *)
Lemma asCube_empty_palette_integrity_error :
  let w := World.mk "" "" [] [[[0; 0]]; [[0]]] "" in
  World.cube w = [] ∧
  World.asCube w = Throw (Thrown "The space has unequal dimensionality") ∧
  World.asCube w ≠ Throw World.no_block.
Proof. by split_and!. Qed.

(** ** The world of one unit cube *)

(** C9. A world whose palette is one cube of extents (1,1,1) holding the
    voxel [v] (visible or not) and whose space is [[[[1]]]] expands to a
    cube of extents (1,1,1) holding [v]. *)
Theorem asCube_unit_world (name description author : string)
    (cname cdescription cauthor : string) (v : Voxel.t) :
  let w := World.mk name description
             [Cube.mk cname cdescription [[[Some v]]] cauthor] [[[1]]] author in
  ∃ out, World.asCube w = Ok out ∧
         Cube.dims out = Some (1, 1, 1) ∧
         Cube.vox out = [[[Some v]]] ∧
         out = Cube.mk name description [[[Some v]]] author.
Proof. by eexists. Qed.

(** ** Mapping the identity over the space *)

Lemma imap_id {A} (l : list A) : imap (λ _ x, x) l = l.
Proof.
  induction l as [|x l IH]; [done|]. rewrite imap_cons. f_equal.
  by rewrite <- IH at 2.
Qed.

(** X2. [World.map] with the identity callback keeps the name, the
    description, the palette and the space, and sets the author to ['']. *)
Lemma World_map_identity (w : World.t) :
  World.map (λ id _ _ _, id) w
  = World.mk (World.name w) (World.description w) (World.cube w)
             (World.space w) "".
Proof.
  unfold World.map. f_equal.
  rewrite <- (imap_id (World.space w)) at 2.
  apply imap_ext. intros i x _. simpl.
  rewrite <- (imap_id x) at 2.
  apply imap_ext. intros j y _. simpl. apply imap_id.
Qed.

(** X1. [Cube.map] with the identity callback returns an equal cube. *)
Lemma Cube_map_identity (c : Cube.t) : Cube.map (λ v _ _ _, v) c = c.
Proof.
  unfold Cube.map. destruct c as [n d vox a]; simpl. f_equal.
  rewrite <- (imap_id vox) at 2.
  apply imap_ext. intros i x _. simpl.
  rewrite <- (imap_id x) at 2.
  apply imap_ext. intros j y _. simpl. apply imap_id.
Qed.

(** C4 fails on the author: the world [map] returns has the author [''],
    whatever the author of the world it is called on. *)
Lemma World_map_identity_author :
  let w := World.mk "w" "" [] [[[0]]] "me" in
  World.author (World.map (λ id _ _ _, id) w) = "" ∧
  World.map (λ id _ _ _, id) w ≠ w.
Proof. by split. Qed.

(** ** Expansion, voxel by voxel *)

Lemma integrity_true_inv (w : World.t) c0 rest :
  World.cube w = c0 :: rest →
  World.integrity w = Ok true →
  ∃ h d ch cd,
    World.height w = Ok h ∧ World.depth w = Ok d ∧
    Cube.height c0 = Ok ch ∧ Cube.depth c0 = Ok cd ∧
    1 ≤ Cube.width c0 ∧ 1 ≤ ch ∧
    len (Array.flat2 (World.space w)) = World.width w * h * d.
Proof.
  intros Hc Hint.
  destruct (World.extents w) as [[[wd h] d]|] eqn:Hext;
    [|by rewrite (integrity_extents_None w Hext) in Hint].
  rewrite (integrity_unfold _ _ _ _ Hext), Hc in Hint.
  apply World_extents_Some in Hext as (Hw & Hh & Hd).
  destruct (Z.eqb_spec (wd * h * d) (len (Array.flat2 (World.space w))))
    as [Heq|]; [|done]. cbn [negb] in Hint.
  destruct (Array.some _ _) as [[]|] eqn:Hsome; [done | | done].
  rewrite some_false in Hsome. apply Forall_cons in Hsome as [H0 _].
  unfold World.unequal_size in H0.
  rewrite (World_cubeWidth_cons _ _ _ Hc), (World_cubeHeight_cons _ _ _ Hc),
    (World_cubeDepth_cons _ _ _ Hc) in H0.
  unfold JS.or_else, JS.not_equal in H0; simpl in H0. rewrite Z.eqb_refl in H0; simpl in H0.
  destruct (Cube.height c0) as [ch|] eqn:Hch; [|done]. simpl in H0.
  rewrite Z.eqb_refl in H0; simpl in H0.
  destruct (Cube.depth c0) as [cd|] eqn:Hcd; [|done].
  exists h, d, ch, cd. split_and!; try done.
  - apply Cube_depth_dims in Hcd as (col & row & Hcol & _).
    unfold Cube.width, len. destruct (Cube.vox c0); [done | simpl; lia].
  - apply Cube_height_dims in Hch as (col & Hcol & ->).
    apply Cube_depth_dims in Hcd as (col' & row & Hcol' & Hrow & _).
    simplify_eq. unfold len. destruct col; [done | simpl; lia].
  - by rewrite Hw.
Qed.

(** With the palette dimensions read, the callback of [asCube] is the
    lookup by width on the z axis. *)
Lemma asCube_voxel_by_width (w : World.t) c0 rest ch (x y z : Z) :
  World.cube w = c0 :: rest →
  Cube.height c0 = Ok ch →
  Cube.width c0 ≠ 0 → ch ≠ 0 →
  World.asCube_voxel w x y z
  = World.voxel_by_width w (Cube.width c0) ch x y z.
Proof.
  intros Hc Hch Hw0 Hh0. unfold World.asCube_voxel, World.voxel_by_width.
  rewrite (World_cubeWidth_cons _ _ _ Hc), (World_cubeHeight_cons _ _ _ Hc), Hch.
  cbn [JS.bind].
  rewrite !floor_div_nonzero by done.
  destruct (index (World.space w) _) as [col|]; cbn [JS.bind defined]; [|done].
  destruct (index col _) as [row|]; cbn [JS.bind defined]; [|done].
  destruct (bool_decide _); [done|].
  destruct (defined (index (World.cube w) _)) as [c|]; cbn [JS.bind]; [|done].
  rewrite !remainder_nonzero by done.
  destruct (index (Cube.vox c) _) as [ccol|]; cbn [JS.bind defined]; [|done].
  by destruct (index ccol _) as [crow|]; cbn [JS.bind defined].
Qed.

Lemma new_Array_lookup (n : Z) (xs : list Z) (i : Z) :
  new_Array n = Ok xs → 0 ≤ i < n →
  len xs = n ∧ xs !! Z.to_nat i = Some 0.
Proof.
  intros [Hn ->]%new_Array_Ok Hi. unfold len. rewrite length_replicate.
  split; [lia|]. apply lookup_replicate_2. lia.
Qed.

Lemma new_Array_len (n : Z) (xs : list Z) : new_Array n = Ok xs → len xs = n.
Proof.
  intros [Hn ->]%new_Array_Ok. unfold len. rewrite length_replicate. lia.
Qed.

(** What a successful [asCube] has built: a grid of the expanded extents
    whose element at [(x, y, z)] is the value of the callback there. *)
Lemma asCube_Ok_grid (w : World.t) c0 rest out h d ch cd :
  World.cube w = c0 :: rest →
  World.height w = Ok h → World.depth w = Ok d →
  Cube.height c0 = Ok ch → Cube.depth c0 = Ok cd →
  World.asCube w = Ok out →
  out = Cube.mk (World.name w) (World.description w) (Cube.vox out)
                (World.author w) ∧
  len (Cube.vox out) = Cube.width c0 * World.width w ∧
  ∀ x, 0 ≤ x < Cube.width c0 * World.width w →
    ∃ col, index (Cube.vox out) (Some x) = Some col ∧ len col = ch * h ∧
    ∀ y, 0 ≤ y < ch * h →
      ∃ row, index col (Some y) = Some row ∧ len row = cd * d ∧
      ∀ z, 0 ≤ z < cd * d →
        ∃ v, index row (Some z) = Some v ∧ World.asCube_voxel w x y z = Ok v.
Proof.
  intros Hc Hh Hd Hch Hcd Has.
  pose proof (asCube_Ok_integrity _ _ Has) as Hint.
  unfold World.asCube in Has. rewrite Hint in Has. cbn [JS.bind negb] in Has.
  rewrite (World_cubeWidth_cons _ _ _ Hc), (World_cubeHeight_cons _ _ _ Hc),
    (World_cubeDepth_cons _ _ _ Hc), Hh, Hd, Hch, Hcd in Has.
  cbn [JS.bind] in Has.
  apply bind_Ok_inv in Has as (vox & Hvox & [= <-]).
  apply bind_Ok_inv in Hvox as (xs & Hxs & Hmap).
  apply map_Ok in Hmap as [Hlen Hcols]. cbn [Cube.vox].
  split; [done|]. split.
  { unfold len. rewrite Hlen. apply (new_Array_len _ _ Hxs). }
  intros x Hx.
  destruct (new_Array_lookup _ _ x Hxs Hx) as [_ Hxn].
  destruct (Hcols _ _ Hxn) as (col & Hcol & Hcb).
  rewrite Z2Nat.id in Hcb by lia.
  apply bind_Ok_inv in Hcb as (ys & Hys & Hmapy).
  apply map_Ok in Hmapy as [Hleny Hrows].
  exists col. split; [by apply index_Some; split; [lia|]|]. split.
  { unfold len. rewrite Hleny. apply (new_Array_len _ _ Hys). }
  intros y Hy.
  destruct (new_Array_lookup _ _ y Hys Hy) as [_ Hyn].
  destruct (Hrows _ _ Hyn) as (row & Hrow & Hcby).
  rewrite Z2Nat.id in Hcby by lia.
  apply bind_Ok_inv in Hcby as (zs & Hzs & Hmapz).
  apply map_Ok in Hmapz as [Hlenz Hvs].
  exists row. split; [by apply index_Some; split; [lia|]|]. split.
  { unfold len. rewrite Hlenz. apply (new_Array_len _ _ Hzs). }
  intros z Hz.
  destruct (new_Array_lookup _ _ z Hzs Hz) as [_ Hzn].
  destruct (Hvs _ _ Hzn) as (v & Hv & Hcbz).
  rewrite Z2Nat.id in Hcbz by lia.
  exists v. split; [by apply index_Some; split; [lia|]|done].
Qed.

Lemma new_Array_total (n : Z) :
  0 ≤ n ≤ max_length → new_Array n = Ok (replicate (Z.to_nat n) 0).
Proof.
  intros Hn. unfold new_Array.
  destruct (Z.ltb_spec n 0); [lia|]. by destruct (Z.ltb_spec max_length n); [lia|].
Qed.

Lemma replicate_lookup_lt (n : Z) (k : nat) (x : Z) :
  replicate (Z.to_nat n) 0 !! k = Some x → 0 ≤ Z.of_nat k < n.
Proof. intros [_ ?]%lookup_replicate. lia. Qed.

(** [asCube] returns a cube when the integrity check passes, the expanded
    extents are array lengths, and the callback throws nowhere in the
    grid. *)
Lemma asCube_total (w : World.t) c0 rest h d ch cd :
  World.cube w = c0 :: rest →
  World.height w = Ok h → World.depth w = Ok d →
  Cube.height c0 = Ok ch → Cube.depth c0 = Ok cd →
  World.integrity w = Ok true →
  Cube.width c0 * World.width w ≤ max_length →
  ch * h ≤ max_length → cd * d ≤ max_length →
  (∀ x y z, 0 ≤ x < Cube.width c0 * World.width w →
            0 ≤ y < ch * h → 0 ≤ z < cd * d →
            ∃ v, World.asCube_voxel w x y z = Ok v) →
  ∃ out, World.asCube w = Ok out.
Proof.
  intros Hc Hh Hd Hch Hcd Hint Hmx Hmy Hmz Hvox.
  assert (0 ≤ Cube.width c0 * World.width w) by (unfold Cube.width, World.width, len; lia).
  assert (0 ≤ ch * h).
  { apply Cube_height_dims in Hch as (? & _ & ->).
    unfold World.height in Hh. apply bind_Ok_inv in Hh as (? & _ & [= <-]).
    unfold len; lia. }
  assert (0 ≤ cd * d).
  { apply Cube_depth_dims in Hcd as (? & ? & _ & _ & ->).
    unfold World.depth in Hd.
    apply bind_Ok_inv in Hd as (? & _ & (? & _ & [= <-])%bind_Ok_inv).
    unfold len; lia. }
  unfold World.asCube. rewrite Hint. cbn [JS.bind negb].
  rewrite (World_cubeWidth_cons _ _ _ Hc), (World_cubeHeight_cons _ _ _ Hc),
    (World_cubeDepth_cons _ _ _ Hc), Hh, Hd, Hch, Hcd.
  cbn [JS.bind]. rewrite !new_Array_total by lia. cbn [JS.bind].
  match goal with |- ∃ out, (let* vox := ?m in _) = _ =>
    assert (∃ vox, m = Ok vox) as [vox ->] end; [|cbn [JS.bind]; eauto].
  apply map_total. intros nx ? Hx%replicate_lookup_lt.
  apply map_total. intros ny ? Hy%replicate_lookup_lt.
  apply map_total. intros nz ? Hz%replicate_lookup_lt.
  by apply Hvox.
Qed.

Lemma index3_Some {A} (l : list (list (list A))) (x y z : Z) (v : A) :
  index3 l x y z = Some v ↔
  ∃ col row, index l (Some x) = Some col ∧ index col (Some y) = Some row ∧
             index row (Some z) = Some v.
Proof.
  unfold index3.
  destruct (index l (Some x)) as [col|]; cbn [mbind option_bind].
  - destruct (index col (Some y)) as [row|] eqn:Hrow; cbn [mbind option_bind].
    + split; [eauto|]. intros (? & ? & [= <-] & Hrow' & ?). by simplify_eq.
    + split; [done|]. intros (? & ? & [= <-] & Hrow' & _). by simplify_eq.
  - split; [done|]. by intros (? & ? & ? & _).
Qed.

(** C1. On a world with a non-empty palette that passes the integrity
    check, the element [asCube] computes at [(x, y, z)] is the one at
    [space[floor(x/cw)][floor(y/ch)][floor(z/cw)]] and
    [vox[x%cw][y%ch][z%cw]] for the width [cw] and height [ch] of the first
    cube: the depth [cd] of the cube only bounds the range of [z]. A cube
    that [asCube] returns holds these elements, and [asCube] returns one
    when none of them throws and the expanded extents are array lengths. *)
Theorem asCube_z_axis_by_width (w : World.t) (c0 : Cube.t) (rest : list Cube.t) :
  World.cube w = c0 :: rest →
  World.integrity w = Ok true →
  ∃ h d ch cd,
    World.height w = Ok h ∧ World.depth w = Ok d ∧
    Cube.height c0 = Ok ch ∧ Cube.depth c0 = Ok cd ∧
    let cw := Cube.width c0 in
    let inside x y z :=
      0 ≤ x < cw * World.width w ∧ 0 ≤ y < ch * h ∧ 0 ≤ z < cd * d in
    (∀ x y z,
       World.asCube_voxel w x y z = World.voxel_by_width w cw ch x y z) ∧
    (∀ out, World.asCube w = Ok out →
       ∀ x y z, inside x y z →
         ∃ v, index3 (Cube.vox out) x y z = Some v ∧
              World.voxel_by_width w cw ch x y z = Ok v) ∧
    (cw * World.width w ≤ max_length →
     ch * h ≤ max_length → cd * d ≤ max_length →
     (∀ x y z, inside x y z →
        ∃ v, World.voxel_by_width w cw ch x y z = Ok v) →
     ∃ out, World.asCube w = Ok out).
Proof.
  intros Hc Hint.
  destruct (integrity_true_inv w c0 rest Hc Hint)
    as (h & d & ch & cd & Hh & Hd & Hch & Hcd & Hcw1 & Hch1 & _).
  exists h, d, ch, cd. split_and!; try done.
  assert (∀ x y z, World.asCube_voxel w x y z
                   = World.voxel_by_width w (Cube.width c0) ch x y z) as Heq.
  { intros x y z. apply (asCube_voxel_by_width w c0 rest); [done | done | lia..]. }
  intros cw inside. split_and!.
  - exact Heq.
  - intros out Hout x y z (Hx & Hy & Hz).
    destruct (asCube_Ok_grid w c0 rest out h d ch cd) as (_ & _ & Hgrid);
      try done.
    destruct (Hgrid x Hx) as (col & Hcol & _ & Hrows).
    destruct (Hrows y Hy) as (row & Hrow & _ & Hvs).
    destruct (Hvs z Hz) as (v & Hv & Hcb).
    exists v. split; [apply index3_Some; eauto | by rewrite <- Heq].
  - intros Hmx Hmy Hmz Hall.
    apply (asCube_total w c0 rest h d ch cd); try done.
    intros x y z Hx Hy Hz. rewrite Heq. by apply Hall.
Qed.

Lemma asCube_z_axis_by_width_witness :
  let a := Voxel.mk 255 0 0 1 in
  let b := Voxel.mk 0 255 0 1 in
  let c0 := Cube.mk "wide" "" [[[Some a]]; [[Some b]]] "" in
  let w := World.mk "" "" [c0] [[[1; 1]]] "" in
  (∀ x y z, World.asCube_voxel w x y z = World.voxel_by_width w 2 1 x y z) ∧
  World.asCube w
  = Ok (Cube.mk "" "" [[[Some a; None]]; [[Some b; None]]] "").
Proof.
  intros a b c0 w.
  destruct (asCube_z_axis_by_width w c0 [] eq_refl eq_refl)
    as (h & d & ch & cd & Hh & Hd & Hch & Hcd & Hvox & _).
  injection Hch as <-. split; [exact Hvox | reflexivity].
Defined.

(** Two blocks of a cube that is wider than deep: at [z = 1] the code
    reads block 0 and the missing element 1 of its row, where the
    expansion by depth reads block 1 and element 0. *)
Lemma asCube_voxel_not_by_depth :
  let a := Voxel.mk 255 0 0 1 in
  let b := Voxel.mk 0 255 0 1 in
  let c0 := Cube.mk "wide" "" [[[Some a]]; [[Some b]]] "" in
  let w := World.mk "" "" [c0] [[[1; 1]]] "" in
  Cube.dims c0 = Some (2, 1, 1) ∧
  World.asCube_voxel w 0 0 1 = Ok None ∧
  World.voxel_by_depth w 2 1 1 0 0 1 = Ok (Some a).
Proof. by split_and!. Qed.

(** A cube that is deeper than wide: the code reads past the end of the
    space on the z axis and throws, where the expansion by depth returns
    the cube itself. *)
Lemma asCube_deep_cube_throws :
  let a := Voxel.mk 255 0 0 1 in
  let c0 := Cube.mk "deep" "" [[[Some a; Some a]]] "" in
  let w := World.mk "" "" [c0] [[[1]]] "" in
  Cube.dims c0 = Some (1, 1, 2) ∧
  World.integrity w = Ok true ∧
  World.asCube w = Throw TypeError ∧
  World.voxel_by_depth w 1 1 2 0 0 1 = Ok (Some a).
Proof. by split_and!. Qed.

(** ** Counting the ids of a space *)

Section counting.
Context {A : Type}.

Lemma concat_length_0 (L : list (list A)) (row : list A) :
  length (concat L) = 0%nat → row ∈ L → row = [].
Proof.
  induction L as [|r L IH]; simpl; [by intros _ ?%elem_of_nil|].
  rewrite length_app. intros Hlen [->|Hin]%elem_of_cons.
  - apply nil_length_inv. lia.
  - apply IH; [lia | done].
Qed.

(** A column whose first [h] rows hold at least [d] elements each holds at
    least [h * d] elements; when it holds exactly that many, these rows
    hold exactly [d] elements and every further row is empty. *)
Lemma rows_exact (h d : nat) (L : list (list A)) :
  (∀ j, (j < h)%nat → ∃ row, L !! j = Some row ∧ (d ≤ length row)%nat) →
  (h * d ≤ length (concat L))%nat ∧
  (length (concat L) = (h * d)%nat →
   ∀ j row, L !! j = Some row →
     ((j < h)%nat ∧ length row = d) ∨ row = []).
Proof.
  revert L. induction h as [|h IH]; intros L Hrows.
  - split; [simpl; lia|]. intros Hlen j row Hj. right.
    apply (concat_length_0 L); [done|]. by eapply list_elem_of_lookup_2.
  - destruct (Hrows 0%nat) as (row0 & H0 & Hd0); [lia|].
    destruct L as [|r L]; [done|]. injection H0 as ->.
    destruct (IH L) as [Hge Hex].
    { intros j Hj. apply (Hrows (S j)). lia. }
    simpl. rewrite length_app. split; [lia|].
    intros Hlen [|j] row; simpl.
    + intros [= <-]. left. split; [lia|lia].
    + intros Hj. destruct (Hex ltac:(lia) j row Hj) as [[? ?]|?];
        [left; split; [lia|done] | by right].
Qed.

Lemma columns_exact (h d : nat) (l : list (list (list A))) :
  (∀ col, col ∈ l →
     ∀ j, (j < h)%nat → ∃ row, col !! j = Some row ∧ (d ≤ length row)%nat) →
  (length l * (h * d) ≤ length (concat (concat l)))%nat ∧
  (length (concat (concat l)) = (length l * (h * d))%nat →
   ∀ col j row, col ∈ l → col !! j = Some row →
     ((j < h)%nat ∧ length row = d) ∨ row = []).
Proof.
  induction l as [|c l IH]; intros Hcols.
  - split; [simpl; lia|]. by intros _ col j row ?%elem_of_nil.
  - destruct (rows_exact h d c) as [Hge Hex].
    { apply Hcols. by left. }
    destruct IH as [Hge' Hex'].
    { intros col Hin. apply Hcols. by right. }
    simpl. rewrite concat_app, length_app. split; [lia|].
    intros Hlen col j row [->|Hin]%elem_of_cons Hj.
    + apply (Hex ltac:(lia) j row Hj).
    + apply (Hex' ltac:(lia) col j row Hin Hj).
Qed.
End counting.

(** ** Empty blocks *)

Lemma div_block (x c i : Z) : i * c ≤ x < (i + 1) * c → x `div` c = i.
Proof.
  intros Hx. symmetry. apply (Z.div_unique_pos x c i (x - i * c)); lia.
Qed.

(** When [asCube] returns, every block of the box of the world's extents
    has an id. *)
Lemma asCube_Ok_box_defined (w : World.t) c0 rest out h d ch (i j k : Z) :
  World.cube w = c0 :: rest →
  World.height w = Ok h → World.depth w = Ok d →
  Cube.height c0 = Ok ch → Cube.depth c0 = Ok (Cube.width c0) →
  World.asCube w = Ok out →
  0 ≤ i < World.width w → 0 ≤ j < h → 0 ≤ k < d →
  is_Some (index3 (World.space w) i j k).
Proof.
  intros Hc Hh Hd Hch Hcd Hout Hi Hj Hk.
  destruct (integrity_true_inv w c0 rest Hc (asCube_Ok_integrity _ _ Hout))
    as (? & ? & ch' & ? & _ & _ & Hch' & _ & Hcw1 & Hch1 & _).
  rewrite Hch in Hch'. injection Hch' as <-.
  destruct (asCube_Ok_grid w c0 rest out h d ch (Cube.width c0))
    as (_ & _ & Hgrid); try done.
  destruct (Hgrid (i * Cube.width c0)) as (? & _ & _ & Hrows); [nia|].
  destruct (Hrows (j * ch)) as (? & _ & _ & Hvs); [nia|].
  destruct (Hvs (k * Cube.width c0)) as (v & _ & Hcb); [nia|].
  rewrite (asCube_voxel_by_width w c0 rest ch) in Hcb; [|done|done|lia..].
  unfold World.voxel_by_width in Hcb.
  rewrite !Z.div_mul in Hcb by lia.
  apply bind_Ok_inv in Hcb as (col & Hcol & Hcb).
  apply bind_Ok_inv in Hcb as (row & Hrow & Hcb).
  destruct (index (World.space w) (Some i)) as [col'|] eqn:Ecol; [|done].
  injection Hcol as ->.
  destruct (index col (Some j)) as [row'|] eqn:Erow; [|done].
  injection Hrow as ->.
  destruct (index row (Some k)) as [id|] eqn:Eid; [|done].
  exists id. apply index3_Some. eauto.
Qed.

(** When [asCube] returns, the space holds no id outside the box of the
    world's extents. *)
Lemma asCube_Ok_space_box (w : World.t) c0 rest out h d ch (i j k id : Z) :
  World.cube w = c0 :: rest →
  World.height w = Ok h → World.depth w = Ok d →
  Cube.height c0 = Ok ch → Cube.depth c0 = Ok (Cube.width c0) →
  World.asCube w = Ok out →
  index3 (World.space w) i j k = Some id →
  0 ≤ i < World.width w ∧ 0 ≤ j < h ∧ 0 ≤ k < d.
Proof.
  intros Hc Hh Hd Hch Hcd Hout Hid.
  destruct (integrity_true_inv w c0 rest Hc (asCube_Ok_integrity _ _ Hout))
    as (h' & d' & ? & ? & Hh' & Hd' & _ & _ & _ & _ & Hcount).
  rewrite Hh in Hh'. injection Hh' as <-.
  rewrite Hd in Hd'. injection Hd' as <-.
  assert (0 ≤ h ∧ 0 ≤ d) as [Hh0 Hd0].
  { unfold World.height in Hh. apply bind_Ok_inv in Hh as (? & _ & [= <-]).
    unfold World.depth in Hd.
    apply bind_Ok_inv in Hd as (? & _ & (? & _ & [= <-])%bind_Ok_inv).
    unfold len; lia. }
  apply index3_Some in Hid as (col & row & Hcol & Hrow & Hid).
  apply index_Some in Hcol as [Hi0 Hcol], Hrow as [Hj0 Hrow], Hid as [Hk0 Hid].
  pose proof (lookup_lt_Some _ _ _ Hcol) as Hi.
  pose proof (lookup_lt_Some _ _ _ Hid) as Hk.
  assert (col ∈ World.space w) as Hin by by eapply list_elem_of_lookup_2.
  assert (row ≠ []) as Hrow_ne by (by intros ->).
  destruct (decide (d = 0)) as [->|Hd1].
  { (* the space holds no id at all *)
    destruct Hrow_ne. unfold Array.flat2, len in Hcount.
    apply (concat_length_0 (concat (World.space w))); [lia|].
    apply list_elem_of_In, in_concat. exists col.
    split; apply list_elem_of_In; [done|]. by eapply list_elem_of_lookup_2. }
  destruct (columns_exact (Z.to_nat h) (Z.to_nat d) (World.space w))
    as [_ Hexact].
  { intros col' Hin' j' Hj'.
    apply list_elem_of_lookup in Hin' as [i' Hi'].
    pose proof (lookup_lt_Some _ _ _ Hi').
    destruct (asCube_Ok_box_defined w c0 rest out h d ch
                (Z.of_nat i') (Z.of_nat j') (d - 1)) as [? Hsome];
      try done; unfold World.width, len; try lia.
    apply index3_Some in Hsome as (col'' & row' & Hcol' & Hrow' & Hlast).
    rewrite index_nat in Hcol'. rewrite index_nat in Hrow'. simplify_eq.
    exists row'. split; [done|].
    apply index_Some in Hlast as [_ Hlast%lookup_lt_Some]. lia. }
  unfold World.width, Array.flat2, len in *.
  destruct (Hexact) with (col := col) (j := Z.to_nat j) (row := row)
    as [[Hjh Hlen]|?]; try done.
  { apply Nat2Z.inj. rewrite !Nat2Z.inj_mul, !Z2Nat.id by lia. lia. }
  lia.
Qed.

(** C3 as stated fails on an empty palette: the id at (0,0,0) is 0 and
    [asCube] throws instead of placing a voxel. *)
Lemma asCube_empty_block_empty_palette :
  let w := World.mk "" "" [] [[[0]]] "" in
  index3 (World.space w) 0 0 0 = Some 0 ∧
  World.asCube w = Throw World.no_block ∧
  ¬ ∃ out, World.asCube w = Ok out.
Proof. split_and!; [done | done | by intros [? ?]]. Qed.

(** C3, as the code has it. Let the palette be non-empty with a first
    cube as deep as it is wide, and let [asCube] return a cube. For every
    coordinate [(i, j, k)] of the space whose id is 0, the cube holds the
    default voxel (all four channels 0, hence invisible) at every expanded
    coordinate of that block, whatever the palette cubes contain. *)
Theorem asCube_empty_block (w : World.t) (c0 : Cube.t) (rest : list Cube.t)
    (out : Cube.t) (ch : Z) (i j k x y z : Z) :
  World.cube w = c0 :: rest →
  Cube.height c0 = Ok ch → Cube.depth c0 = Ok (Cube.width c0) →
  World.asCube w = Ok out →
  index3 (World.space w) i j k = Some 0 →
  i * Cube.width c0 ≤ x < (i + 1) * Cube.width c0 →
  j * ch ≤ y < (j + 1) * ch →
  k * Cube.width c0 ≤ z < (k + 1) * Cube.width c0 →
  index3 (Cube.vox out) x y z = Some (Some Voxel.empty) ∧
  Voxel.empty = Voxel.mk 0 0 0 0 ∧ Voxel.visible Voxel.empty = false.
Proof.
  intros Hc Hch Hcd Hout Hid Hx Hy Hz.
  split; [|done].
  destruct (integrity_true_inv w c0 rest Hc (asCube_Ok_integrity _ _ Hout))
    as (h & d & ch' & ? & Hh & Hd & Hch' & _ & Hcw1 & Hch1 & _).
  rewrite Hch in Hch'. injection Hch' as <-.
  destruct (asCube_Ok_space_box w c0 rest out h d ch i j k 0)
    as (Hi & Hj & Hk); try done.
  apply index3_Some in Hid as (col & row & Hcol & Hrow & Hid).
  assert (0 ≤ x < Cube.width c0 * World.width w) as Hx' by nia.
  assert (0 ≤ y < ch * h) as Hy' by nia.
  assert (0 ≤ z < Cube.width c0 * d) as Hz' by nia.
  destruct (asCube_Ok_grid w c0 rest out h d ch (Cube.width c0))
    as (_ & _ & Hgrid); try done.
  destruct (Hgrid x Hx') as (ocol & Hocol & _ & Hrows).
  destruct (Hrows y Hy') as (orow & Horow & _ & Hvs).
  destruct (Hvs z Hz') as (v & Hv & Hcb).
  apply index3_Some. exists ocol, orow. split_and!; [done..|].
  rewrite Hv. f_equal.
  rewrite (asCube_voxel_by_width w c0 rest ch) in Hcb; [|done|done|lia..].
  unfold World.voxel_by_width in Hcb.
  rewrite (div_block x _ i), (div_block y _ j), (div_block z _ k) in Hcb
    by done.
  rewrite Hcol in Hcb. cbn [JS.bind defined] in Hcb.
  rewrite Hrow in Hcb. cbn [JS.bind defined] in Hcb.
  rewrite Hid, bool_decide_eq_true_2 in Hcb by done. by injection Hcb.
Qed.

Lemma asCube_empty_block_witness :
  let a := Voxel.mk 255 0 0 1 in
  let c0 := Cube.mk "" "" [[[Some a; Some a]]; [[Some a; Some a]]] "" in
  let w := World.mk "" "" [c0] [[[1; 0]]] "" in
  index3 (World.space w) 0 0 1 = Some 0 ∧
  ∃ out, World.asCube w = Ok out ∧
         index3 (Cube.vox out) 1 0 3 = Some (Some Voxel.empty).
Proof.
  intros a c0 w. split; [reflexivity|].
  eexists. split; [reflexivity|].
  refine (proj1 (asCube_empty_block w c0 [] _ 1 0 0 1 1 0 3
    eq_refl eq_refl eq_refl eq_refl eq_refl _ _ _));
    subst a c0 w; unfold Cube.width, len; simpl; lia.
Defined.

(** ** Voxel types *)

Lemma Voxel_eqb_eq (x y : Voxel.t) : Voxel.eqb x y = true ↔ x = y.
Proof.
  destruct x, y. unfold Voxel.eqb; simpl.
  rewrite !andb_true_iff, !Z.eqb_eq. split.
  - by intros [[[-> ->] ->] ->].
  - by intros [= -> -> -> ->].
Qed.

Lemma Voxel_eqb_false (x y : Voxel.t) : Voxel.eqb x y = false ↔ x ≠ y.
Proof. rewrite <- Voxel_eqb_eq. by destruct (Voxel.eqb x y). Qed.

Lemma elem_of_first_seen (l : list Voxel.t) (x : Voxel.t) :
  x ∈ first_seen l ↔ x ∈ l.
Proof.
  induction l as [|y l IH]; simpl; [done|].
  rewrite !elem_of_cons, list_elem_of_filter, IH.
  destruct (decide (x = y)) as [->|]; intuition congruence.
Qed.

Lemma NoDup_first_seen (l : list Voxel.t) : NoDup (first_seen l).
Proof.
  induction l as [|y l IH]; simpl; constructor.
  - rewrite list_elem_of_filter. by intros [? _].
  - by apply NoDup_filter.
Qed.

Lemma filter_all {A} (P : A → Prop) `{!∀ x, Decision (P x)} (l : list A) :
  Forall P l → filter P l = l.
Proof.
  induction 1 as [|x l Hx _ IH]; [done|].
  by rewrite filter_cons_True, IH.
Qed.

Lemma filter_other (x : Voxel.t) (l : list Voxel.t) :
  x ∉ l → filter (λ y, y ≠ x) l = l.
Proof.
  intros Hx. apply filter_all, Forall_forall. by intros y Hy ->.
Qed.

Lemma first_seen_NoDup (l : list Voxel.t) : NoDup l → first_seen l = l.
Proof.
  induction 1 as [|x l Hx _ IH]; simpl; [done|].
  by rewrite IH, filter_other.
Qed.

Lemma first_seen_app (l k : list Voxel.t) :
  first_seen (l ++ k) = first_seen l ++ filter (λ y, y ∉ l) (first_seen k).
Proof.
  induction l as [|x l IH]; simpl.
  - symmetry. apply filter_all, Forall_forall. by intros y _ ?%elem_of_nil.
  - f_equal. rewrite IH, filter_app, list_filter_filter. f_equal.
    apply list_filter_iff. intros y. rewrite not_elem_of_cons. tauto.
Qed.

Lemma distinct_NoDup (l : list Voxel.t) : NoDup l → distinct l.
Proof.
  intros Hl i j x y Hij Hi Hj. apply Voxel_eqb_false. intros ->.
  by apply Hij, (NoDup_lookup l i j y).
Qed.

Lemma every_fresh (a : list Voxel.t) (x : Voxel.t) :
  Array.every (λ v, let* same := Voxel.eq v (Some x) in Ok (negb same))
    (Some <$> a)
  = Ok (bool_decide (x ∉ a)).
Proof.
  induction a as [|y a IH]; [done|].
  rewrite fmap_cons. cbn [Array.every Voxel.eq defined JS.bind].
  destruct (Voxel.eqb y x) eqn:E; cbn [negb].
  - apply Voxel_eqb_eq in E as ->.
    rewrite bool_decide_eq_false_2; [done|]. intros Hn. apply Hn. by left.
  - apply Voxel_eqb_false in E. rewrite IH. f_equal.
    apply bool_decide_ext. rewrite not_elem_of_cons. intuition congruence.
Qed.

Lemma add_type_defined (a : list Voxel.t) (x : Voxel.t) :
  Cube.add_type (Some <$> a) (Some x)
  = Ok (Some <$> (if decide (x ∈ a) then a else a ++ [x])).
Proof.
  unfold Cube.add_type. rewrite every_fresh; cbn [JS.bind].
  destruct (decide (x ∈ a)).
  - by rewrite bool_decide_eq_false_2 by tauto.
  - rewrite bool_decide_eq_true_2 by done. by rewrite fmap_app.
Qed.

Lemma reduce_add_type (vs acc : list Voxel.t) :
  Array.reduce Cube.add_type (Some <$> vs) (Some <$> acc)
  = Ok (Some <$> (acc ++ filter (λ y, y ∉ acc) (first_seen vs))).
Proof.
  revert acc. induction vs as [|x vs IH]; intros acc.
  - simpl. by rewrite app_nil_r.
  - rewrite fmap_cons. cbn [Array.reduce first_seen].
    rewrite add_type_defined; cbn [JS.bind]. destruct (decide (x ∈ acc)).
    + rewrite IH. do 3 f_equal.
      rewrite filter_cons_False by tauto.
      symmetry. apply list_filter_filter_l. by intros y Hy ->.
    + rewrite IH. do 2 f_equal. rewrite <- app_assoc. f_equal. simpl.
      rewrite filter_cons_True by done. f_equal.
      rewrite list_filter_filter. apply list_filter_iff. intros y.
      rewrite not_elem_of_app, not_elem_of_cons. split.
      * intros [? [? _]]. done.
      * intros [? ?]. split_and!; [done..|]. by intros ?%elem_of_nil.
Qed.

Lemma filter_visible (l : list Voxel.t) :
  Array.filter (λ vt, let* vt := defined vt in Ok (Voxel.visible vt))
    (Some <$> l)
  = Ok (Some <$> filter (λ v, Voxel.a v ≠ 0) l).
Proof.
  induction l as [|x l IH]; [done|].
  rewrite fmap_cons. cbn [Array.filter defined JS.bind]. rewrite IH.
  cbn [JS.bind]. f_equal.
  unfold Voxel.visible. destruct (Z.eqb_spec (Voxel.a x) 0); cbn [negb].
  - by rewrite filter_cons_False by tauto.
  - by rewrite filter_cons_True by done.
Qed.

Lemma omap_defined (l : list Voxel.t) :
  omap (λ vt : option Voxel.t, vt) (Some <$> l) = l.
Proof.
  induction l as [|x l IH]; [done|].
  rewrite fmap_cons. cbn [omap list_omap]. by rewrite IH.
Qed.

Lemma Cube_voxelTypes_defined (c : Cube.t) (vs : list Voxel.t) :
  Array.flat2 (Cube.vox c) = Some <$> vs →
  Cube.voxelTypes c = Ok (filter (λ v, Voxel.a v ≠ 0) (first_seen vs)).
Proof.
  intros Hvs. unfold Cube.voxelTypes. rewrite Hvs.
  rewrite (reduce_add_type vs [] :
             Array.reduce Cube.add_type (Some <$> vs) [] = _); cbn [JS.bind app].
  rewrite filter_all by (apply Forall_forall; by intros y _ ?%elem_of_nil).
  rewrite filter_visible; cbn [JS.bind]. by rewrite omap_defined.
Qed.

(** A grid with an [undefined] element. *)

Lemma cells_split (cells : list (option Voxel.t)) :
  (∃ vs, cells = Some <$> vs) ∨
  (∃ pre post, cells = (Some <$> pre) ++ None :: post).
Proof.
  induction cells as [|[x|] cells IH].
  - left. by exists [].
  - destruct IH as [[vs ->]|(pre & post & ->)].
    + left. by exists (x :: vs).
    + right. by exists (x :: pre), post.
  - right. by exists [], cells.
Qed.

Lemma reduce_app {A B} (f : B → A → result B) (l k : list A) (acc : B) :
  Array.reduce f (l ++ k) acc
  = let* a := Array.reduce f l acc in Array.reduce f k a.
Proof.
  revert acc. induction l as [|x l IH]; intros acc; simpl; [done|].
  destruct (f acc x); simpl; [apply IH | done].
Qed.

Lemma add_type_undefined (a : list (option Voxel.t)) :
  Cube.add_type a None = match a with [] => Ok [None] | _ => Throw TypeError end.
Proof. destruct a as [|[v|] a]; reflexivity. Qed.

Lemma reduce_after_undefined (post : list (option Voxel.t)) :
  Array.reduce Cube.add_type post [None]
  = match post with [] => Ok [None] | _ => Throw TypeError end.
Proof. by destruct post. Qed.

Lemma Cube_voxelTypes_undefined (c : Cube.t) pre post :
  Array.flat2 (Cube.vox c) = (Some <$> pre) ++ None :: post →
  Cube.voxelTypes c = Throw TypeError.
Proof.
  intros Hcells. unfold Cube.voxelTypes. rewrite Hcells, reduce_app.
  rewrite (reduce_add_type pre [] :
             Array.reduce Cube.add_type (Some <$> pre) [] = _); cbn [JS.bind app].
  cbn [Array.reduce]. rewrite add_type_undefined.
  destruct (filter _ (first_seen pre)); [|done].
  cbn [fmap list_fmap JS.bind]. rewrite reduce_after_undefined.
  by destruct post.
Qed.

Lemma Cube_voxelTypes_Ok (c : Cube.t) (l : list Voxel.t) :
  Cube.voxelTypes c = Ok l →
  ∃ vs, Array.flat2 (Cube.vox c) = Some <$> vs ∧
        l = filter (λ v, Voxel.a v ≠ 0) (first_seen vs).
Proof.
  intros Hl. destruct (cells_split (Array.flat2 (Cube.vox c)))
    as [[vs Hvs]|(pre & post & Hcells)].
  - exists vs. split; [done|].
    rewrite (Cube_voxelTypes_defined c vs Hvs) in Hl. by injection Hl.
  - by rewrite (Cube_voxelTypes_undefined c pre post Hcells) in Hl.
Qed.

(** The union over the palette. *)

Lemma some_seen (a : list Voxel.t) (x : Voxel.t) :
  Array.some (λ y, Voxel.eq (Some x) (Some y)) a = Ok (bool_decide (x ∈ a)).
Proof.
  induction a as [|y a IH]; [done|].
  cbn [Array.some].
  replace (Voxel.eq (Some x) (Some y)) with (Ok (Voxel.eqb x y)) by done.
  cbn [JS.bind]. destruct (Voxel.eqb x y) eqn:E.
  - apply Voxel_eqb_eq in E as ->.
    rewrite bool_decide_eq_true_2; [done | by left].
  - apply Voxel_eqb_false in E. rewrite IH. f_equal.
    apply bool_decide_ext. rewrite elem_of_cons. intuition congruence.
Qed.

Lemma add_types_unseen (a c : list Voxel.t) :
  World.add_types a c = Ok (a ++ filter (λ x, x ∉ a) c).
Proof.
  unfold World.add_types.
  assert (Array.filter (λ x,
      let* seen := Array.some (λ y, Voxel.eq (Some x) (Some y)) a in
      Ok (negb seen)) c = Ok (filter (λ x, x ∉ a) c)) as ->; [|done].
  induction c as [|x c IH]; [done|].
  cbn [Array.filter]. rewrite some_seen, IH. cbn [JS.bind]. f_equal.
  destruct (decide (x ∈ a)).
  - rewrite bool_decide_eq_true_2 by done.
    by rewrite filter_cons_False by tauto.
  - rewrite bool_decide_eq_false_2 by done.
    by rewrite filter_cons_True by done.
Qed.

Lemma reduce_add_types (ls : list (list Voxel.t)) (acc : list Voxel.t) :
  Forall NoDup ls →
  Array.reduce World.add_types ls acc
  = Ok (acc ++ filter (λ y, y ∉ acc) (first_seen (concat ls))).
Proof.
  intros Hls. revert acc. induction Hls as [|c ls Hc _ IH]; intros acc.
  - simpl. by rewrite app_nil_r.
  - cbn [Array.reduce concat]. rewrite add_types_unseen. cbn [JS.bind].
    rewrite IH. f_equal. rewrite <- app_assoc. f_equal.
    rewrite first_seen_app, (first_seen_NoDup c Hc), filter_app. f_equal.
    rewrite list_filter_filter. apply list_filter_iff. intros y.
    rewrite not_elem_of_app, list_elem_of_filter. tauto.
Qed.

Lemma World_voxelTypes_union (w : World.t) (ls : list (list Voxel.t)) :
  Array.map (λ c _, Cube.voxelTypes c) (World.cube w) = Ok ls →
  World.voxelTypes w = Ok (first_seen (concat ls)) ∧
  Forall (Forall (λ v, Voxel.a v ≠ 0)) ls.
Proof.
  intros Hls. unfold World.voxelTypes. rewrite Hls. cbn [JS.bind].
  apply map_Ok in Hls as [Hlen Hls].
  assert (∀ l, l ∈ ls → ∃ vs, l = filter (λ v, Voxel.a v ≠ 0) (first_seen vs))
    as Hall.
  { intros l [n Hn]%list_elem_of_lookup.
    destruct (lookup_lt_is_Some_2 (World.cube w) n) as [c Hc].
    { rewrite <- Hlen. by eapply lookup_lt_Some. }
    destruct (Hls n c Hc) as (l' & Hl' & Hvt). simplify_eq.
    apply Cube_voxelTypes_Ok in Hvt as (vs & _ & ->). eauto. }
  split.
  - rewrite reduce_add_types.
    + simpl. f_equal. apply filter_all, Forall_forall.
      by intros y _ ?%elem_of_nil.
    + apply Forall_forall. intros l [vs ->]%Hall.
      apply NoDup_filter, NoDup_first_seen.
  - apply Forall_forall. intros l [vs ->]%Hall.
    apply Forall_forall. by intros v [? _]%list_elem_of_filter.
Qed.

Lemma visible_filter_distinct (vs : list Voxel.t) :
  let l := filter (λ v, Voxel.a v ≠ 0) (first_seen vs) in
  distinct l ∧ Forall (λ v, Voxel.a v ≠ 0) l.
Proof.
  split.
  - apply distinct_NoDup, NoDup_filter, NoDup_first_seen.
  - apply Forall_forall. by intros v [? _]%list_elem_of_filter.
Qed.

Lemma all_defined (cells : list (option Voxel.t)) :
  Forall is_Some cells ↔ ∃ vs, cells = Some <$> vs.
Proof.
  split.
  - induction 1 as [|? cells [v ->] _ [vs ->]]; [by exists []|].
    by exists (v :: vs).
  - intros [vs ->]. apply Forall_fmap, Forall_forall. by eexists.
Qed.

Lemma Cube_all_voxels (c : Cube.t) :
  Cube.all_voxels c ↔ ∃ vs, Array.flat2 (Cube.vox c) = Some <$> vs.
Proof.
  rewrite <- all_defined. unfold Cube.all_voxels, Array.flat2.
  split; intros H.
  - exact (proj2 (@Forall_concat _ _ _) (proj2 (@Forall_concat _ _ _) H)).
  - exact (proj1 (@Forall_concat _ _ _) (proj1 (@Forall_concat _ _ _) H)).
Qed.

Lemma World_voxelTypes_total (w : World.t) :
  Forall Cube.all_voxels (World.cube w) → ∃ l, World.voxelTypes w = Ok l.
Proof.
  intros Hall.
  destruct (map_total (λ c (_ : Z), Cube.voxelTypes c) (World.cube w))
    as [ls Hls].
  { intros n c Hc%list_elem_of_lookup_2. rewrite Forall_forall in Hall.
    destruct (proj1 (Cube_all_voxels c) (Hall c Hc)) as [vs Hvs].
    rewrite (Cube_voxelTypes_defined c vs Hvs). eauto. }
  destruct (World_voxelTypes_union w ls Hls) as [-> _]. eauto.
Qed.

(** C8. [voxelTypes] of a cube returns exactly when every element of the
    grid is a voxel; the result is then the scan of the grid deduplicated
    in first-seen order and filtered to the voxels with a non-zero alpha,
    so no two entries are equal channel by channel and none has alpha 0.
    [voxelTypes] of a world, which returns when every palette cube's does,
    is the first-seen deduplication of the concatenated [voxelTypes] of
    its palette cubes, with the same two properties. *)
Theorem voxelTypes_distinct_visible :
  (∀ (c : Cube.t) (vs : list Voxel.t),
     Array.flat2 (Cube.vox c) = Some <$> vs →
     ∃ l, Cube.voxelTypes c = Ok l ∧
          l = filter (λ v, Voxel.a v ≠ 0) (first_seen vs) ∧
          distinct l ∧ Forall (λ v, Voxel.a v ≠ 0) l) ∧
  (∀ (c : Cube.t) (l : list Voxel.t),
     Cube.voxelTypes c = Ok l → Cube.all_voxels c) ∧
  (∀ (w : World.t) (ls : list (list Voxel.t)),
     Array.map (λ c _, Cube.voxelTypes c) (World.cube w) = Ok ls →
     ∃ l, World.voxelTypes w = Ok l ∧
          l = first_seen (concat ls) ∧
          distinct l ∧ Forall (λ v, Voxel.a v ≠ 0) l) ∧
  (∀ w : World.t,
     Forall Cube.all_voxels (World.cube w) →
     ∃ l, World.voxelTypes w = Ok l).
Proof.
  split_and!.
  - intros c vs Hvs. eexists. split; [by apply Cube_voxelTypes_defined|].
    split; [done|]. apply visible_filter_distinct.
  - intros c l (vs & Hvs & _)%Cube_voxelTypes_Ok. apply Cube_all_voxels. eauto.
  - intros w ls [Hl Hvis]%World_voxelTypes_union.
    eexists. split; [done|]. split; [done|]. split.
    + apply distinct_NoDup, NoDup_first_seen.
    + apply Forall_forall.
      intros v (l & Hl' & Hv)%elem_of_first_seen%list_elem_of_In%in_concat.
      apply list_elem_of_In in Hl', Hv.
      rewrite Forall_forall in Hvis. specialize (Hvis l Hl').
      rewrite Forall_forall in Hvis. by apply Hvis.
  - apply World_voxelTypes_total.
Qed.

(** ** Serialization round trip *)

Lemma Voxel_fromJSON_toJSON (v : Voxel.t) :
  Voxel.fromJSON (Some (Voxel.toJSON v)) = Ok v.
Proof. by destruct v. Qed.

Lemma map_from_fmap_inv {A B} (f : A → result B) (h : B → A) (i : Z)
    (l : list B) :
  Forall (λ y, f (h y) = Ok y) l →
  Array.map_from (λ x _, f x) i (h <$> l) = Ok l.
Proof.
  intros Hl. revert i. induction Hl as [|y l Hy _ IH]; intros i; [done|].
  rewrite fmap_cons. cbn [Array.map_from]. by rewrite Hy, IH.
Qed.

Lemma map_fmap_inv {A B} (f : A → result B) (h : B → A) (l : list B) :
  Forall (λ y, f (h y) = Ok y) l →
  Array.map (λ x _, f x) (h <$> l) = Ok l.
Proof. apply map_from_fmap_inv. Qed.

Lemma Cube_fromJSON_toJSON (c : Cube.t) :
  Cube.all_voxels c → Cube.fromJSON (Cube.toJSON c) = Ok c.
Proof.
  intros Hc. destruct c as [n d vox a].
  unfold Cube.fromJSON, Cube.toJSON, Cube.all_voxels in *. simpl in *.
  rewrite map_fmap_inv; [done|].
  eapply Forall_impl; [exact Hc|]. intros col Hcol; simpl.
  apply map_fmap_inv.
  eapply Forall_impl; [exact Hcol|]. intros row Hrow; simpl.
  apply map_fmap_inv.
  eapply Forall_impl; [exact Hrow|]. intros v [v0 ->].
  cbn [fmap option_fmap option_map]. by rewrite Voxel_fromJSON_toJSON.
Qed.

(** C5. A world all of whose palette cubes hold a voxel at every element
    of their grid is reproduced by [fromJSON] from its serialized form:
    the name, description and author, the space, and every palette cube
    with its name, description, author and voxel grid are the same. *)
Theorem World_fromJSON_toJSON (w : World.t) :
  Forall Cube.all_voxels (World.cube w) →
  World.fromJSON (World.toJSON w) = Ok w.
Proof.
  intros Hw. destruct w as [n d cube space a].
  unfold World.fromJSON, World.toJSON. simpl in *.
  rewrite map_fmap_inv; [done|].
  eapply Forall_impl; [exact Hw|]. intros c Hc. by apply Cube_fromJSON_toJSON.
Qed.

Lemma World_fromJSON_toJSON_witness :
  let red := Voxel.mk 255 0 0 1 in
  let c := Cube.mk "brick" "a red brick" [[[Some red; Some Voxel.empty]]] "me" in
  let w := World.mk "home" "" [c; c] [[[1; 0]; [2; 2]]] "me" in
  World.fromJSON (World.toJSON w) = Ok w.
Proof.
  intros red c w. apply (World_fromJSON_toJSON w).
  repeat (constructor; try by eexists).
Defined.

(** An [undefined] element is serialized as [null], which [fromJSON]
    cannot read back. *)
Lemma Cube_fromJSON_undefined :
  let c := Cube.mk "" "" [[[None]]] "" in
  Cube.fromJSON (Cube.toJSON c) = Throw TypeError.
Proof. reflexivity. Qed.

(** ** The shape of the expanded cube *)

Lemma asCube_Ok_cons (w : World.t) (out : Cube.t) :
  World.asCube w = Ok out → ∃ c0 rest, World.cube w = c0 :: rest.
Proof.
  intros Hout. destruct (World.cube w) as [|c0 rest] eqn:Hc; [|eauto].
  rewrite (asCube_nil w Hc) in Hout.
  by destruct (World.integrity w) as [[]|].
Qed.

(** Everything a successful [asCube] rests on. *)
Lemma asCube_Ok_inv (w : World.t) (out : Cube.t) :
  World.asCube w = Ok out →
  ∃ c0 rest h d ch cd,
    World.cube w = c0 :: rest ∧
    World.height w = Ok h ∧ World.depth w = Ok d ∧
    Cube.height c0 = Ok ch ∧ Cube.depth c0 = Ok cd ∧
    1 ≤ Cube.width c0 ∧ 1 ≤ ch ∧ 0 ≤ cd ∧
    1 ≤ World.width w ∧ 1 ≤ h ∧ 0 ≤ d.
Proof.
  intros Hout. destruct (asCube_Ok_cons w out Hout) as (c0 & rest & Hc).
  destruct (integrity_true_inv w c0 rest Hc (asCube_Ok_integrity _ _ Hout))
    as (h & d & ch & cd & Hh & Hd & Hch & Hcd & Hcw1 & Hch1 & _).
  exists c0, rest, h, d, ch, cd. split_and!; try done.
  - apply Cube_depth_dims in Hcd as (? & ? & _ & _ & ->). unfold len; lia.
  - unfold World.depth in Hd. apply bind_Ok_inv in Hd as (col & Hcol & _).
    unfold World.width, len. destruct (World.space w); [done | simpl; lia].
  - unfold World.height in Hh. apply bind_Ok_inv in Hh as (col & Hcol & [= <-]).
    unfold World.depth in Hd. rewrite Hcol in Hd. simpl in Hd.
    apply bind_Ok_inv in Hd as (row & Hrow & _).
    unfold len. destruct col; [done | simpl; lia].
  - unfold World.depth in Hd.
    apply bind_Ok_inv in Hd as (? & _ & (? & _ & [= <-])%bind_Ok_inv).
    unfold len; lia.
Qed.

(** X7. A cube that [asCube] returns carries the name, description and
    author of the world, and its grid is a box of
    [cubeWidth * width] columns of [cubeHeight * height] rows of
    [cubeDepth * depth] elements. *)
Theorem asCube_extents (w : World.t) (out : Cube.t) :
  World.asCube w = Ok out →
  Cube.name out = World.name w ∧
  Cube.description out = World.description w ∧
  Cube.author out = World.author w ∧
  ∃ c0 h d ch cd,
    head (World.cube w) = Some c0 ∧
    World.height w = Ok h ∧ World.depth w = Ok d ∧
    Cube.height c0 = Ok ch ∧ Cube.depth c0 = Ok cd ∧
    Cube.dims out = Some (Cube.width c0 * World.width w, ch * h, cd * d) ∧
    Forall (λ col, len col = ch * h ∧
                   Forall (λ row, len row = cd * d) col) (Cube.vox out).
Proof.
  intros Hout.
  destruct (asCube_Ok_inv w out Hout)
    as (c0 & rest & h & d & ch & cd & Hc & Hh & Hd & Hch & Hcd
        & Hcw1 & Hch1 & Hcd0 & Hw1 & Hh1 & Hd0).
  destruct (asCube_Ok_grid w c0 rest out h d ch cd) as (Hmk & Hlen & Hgrid);
    try done.
  rewrite Hmk; cbn [Cube.name Cube.description Cube.author]. split_and!; try done.
  exists c0, h, d, ch, cd. rewrite Hc. split_and!; try done; cbn [Cube.vox].
  - destruct (Hgrid 0) as (col & Hcol & Hlcol & Hrows); [nia|].
    destruct (Hrows 0) as (row & Hrow & Hlrow & _); [nia|].
    rewrite index_0 in Hcol. rewrite index_0 in Hrow. unfold Cube.dims; cbn [Cube.vox].
    rewrite Hcol; simpl. rewrite Hrow; simpl. by rewrite Hlen, Hlcol, Hlrow.
  - apply Forall_forall. intros col [nx Hnx]%list_elem_of_lookup.
    pose proof (lookup_lt_Some _ _ _ Hnx) as Hltx.
    destruct (Hgrid (Z.of_nat nx)) as (col' & Hcol & Hlcol & Hrows).
    { unfold len in Hlen. lia. }
    rewrite index_nat in Hcol. simplify_eq. split; [done|].
    apply Forall_forall. intros row [ny Hny]%list_elem_of_lookup.
    pose proof (lookup_lt_Some _ _ _ Hny) as Hlty.
    destruct (Hrows (Z.of_nat ny)) as (row' & Hrow & Hlrow & _).
    { unfold len in Hlcol. lia. }
    rewrite index_nat in Hrow. by simplify_eq.
Qed.

Lemma asCube_extents_witness :
  let a := Voxel.mk 255 0 0 1 in
  let c0 := Cube.mk "brick" "" [[[Some a]]] "" in
  let w := World.mk "home" "two blocks" [c0] [[[1; 0]]] "me" in
  let out := Cube.mk "home" "two blocks" [[[Some a; Some Voxel.empty]]] "me" in
  World.asCube w = Ok out ∧ Cube.dims out = Some (1 * 1, 1 * 1, 1 * 2).
Proof.
  intros a c0 w out. split; [reflexivity|].
  destruct (asCube_extents w out eq_refl)
    as (_ & _ & _ & c0' & h & d & ch & cd & Hhead & Hh & Hd & Hch & Hcd
        & Hdims & _).
  injection Hhead as <-. injection Hh as <-. injection Hd as <-.
  injection Hch as <-. injection Hcd as <-. exact Hdims.
Defined.

(** ** What the integrity check says about every palette cube *)

Lemma unequal_size_false (w : World.t) c0 rest c :
  World.cube w = c0 :: rest →
  World.unequal_size w c = Ok false →
  ∃ ch cd, Cube.width c = Cube.width c0 ∧
           Cube.height c = Ok ch ∧ Cube.height c0 = Ok ch ∧
           Cube.depth c = Ok cd ∧ Cube.depth c0 = Ok cd.
Proof.
  intros Hc. unfold World.unequal_size.
  rewrite (World_cubeWidth_cons _ _ _ Hc), (World_cubeHeight_cons _ _ _ Hc),
    (World_cubeDepth_cons _ _ _ Hc).
  unfold JS.or_else, JS.not_equal; cbn [JS.bind].
  destruct (Z.eqb_spec (Cube.width c) (Cube.width c0)) as [Hw|]; [|done].
  cbn [negb].
  destruct (Cube.height c) as [ch|]; [|done]. cbn [JS.bind].
  destruct (Cube.height c0) as [ch0|]; [|done]. cbn [JS.bind].
  destruct (Z.eqb_spec ch ch0) as [->|]; [|done]. cbn [negb].
  destruct (Cube.depth c) as [cd|]; [|done]. cbn [JS.bind].
  destruct (Cube.depth c0) as [cd0|]; [|done]. cbn [JS.bind].
  destruct (Z.eqb_spec cd cd0) as [->|]; [|done]. eauto 10.
Qed.

Lemma integrity_true_palette (w : World.t) c0 rest c :
  World.cube w = c0 :: rest →
  World.integrity w = Ok true →
  c ∈ World.cube w →
  ∃ ch cd, Cube.width c = Cube.width c0 ∧
           Cube.height c = Ok ch ∧ Cube.height c0 = Ok ch ∧
           Cube.depth c = Ok cd ∧ Cube.depth c0 = Ok cd.
Proof.
  intros Hc Hint Hin.
  destruct (World.extents w) as [[[wd h] d]|] eqn:Hext;
    [|by rewrite (integrity_extents_None w Hext) in Hint].
  rewrite (integrity_unfold _ _ _ _ Hext) in Hint.
  destruct (negb _); [done|]. rewrite Hc in Hint. rewrite <- Hc in Hint.
  destruct (Array.some _ _) as [[]|] eqn:Hsome; [done | | done].
  rewrite some_false, Forall_forall in Hsome.
  by apply (unequal_size_false w c0 rest c Hc), Hsome.
Qed.

(** ** Palette cubes that are not as deep as wide *)

Lemma defined_Ok {A} (o : option A) (x : A) : defined o = Ok x ↔ o = Some x.
Proof. destruct o; simpl; split; congruence. Qed.

Lemma World_depth_row (w : World.t) (d : Z) :
  World.depth w = Ok d →
  ∃ col row, index (World.space w) (Some 0) = Some col ∧
             index col (Some 0) = Some row ∧ len row = d.
Proof.
  unfold World.depth.
  intros (col & Hcol%defined_Ok & (row & Hrow%defined_Ok & [= <-])%bind_Ok_inv)
    %bind_Ok_inv.
  eauto.
Qed.

Lemma index_len {A} (l : list A) : index l (Some (len l)) = None.
Proof.
  unfold index, len. destruct (Z.ltb_spec (Z.of_nat (length l)) 0); [done|].
  rewrite Nat2Z.id. by apply lookup_ge_None.
Qed.

(** X6. When the first palette cube is deeper than wide and the space has
    a block along z, [asCube] does not return: at [z = cubeWidth * depth]
    it reads the id past the end of a row of the space. *)
Theorem asCube_deeper_than_wide (w : World.t) (c0 : Cube.t) (cd d : Z) :
  head (World.cube w) = Some c0 →
  Cube.depth c0 = Ok cd → World.depth w = Ok d →
  Cube.width c0 < cd → 1 ≤ d →
  ∃ e, World.asCube w = Throw e.
Proof.
  intros Hhead Hcd Hd Hlt Hd1.
  destruct (World.asCube w) as [out|e] eqn:Hout; [exfalso | eauto].
  destruct (asCube_Ok_inv w out Hout)
    as (c0' & rest & h & d' & ch & cd' & Hc & Hh & Hd' & Hch & Hcd'
        & Hcw1 & Hch1 & _ & Hw1 & Hh1 & _).
  rewrite Hc in Hhead. injection Hhead as ->.
  rewrite Hd in Hd'. injection Hd' as <-.
  rewrite Hcd in Hcd'. injection Hcd' as <-.
  destruct (asCube_Ok_grid w c0 rest out h d ch cd) as (_ & _ & Hgrid);
    try done.
  destruct (Hgrid 0) as (? & _ & _ & Hrows); [nia|].
  destruct (Hrows 0) as (? & _ & _ & Hvs); [nia|].
  destruct (Hvs (Cube.width c0 * d)) as (v & _ & Hcb); [nia|].
  rewrite (asCube_voxel_by_width w c0 rest ch) in Hcb; [|done|done|lia..].
  unfold World.voxel_by_width in Hcb.
  destruct (World_depth_row w d Hd) as (col & row & Hcol & Hrow & Hlen).
  rewrite !Z.div_0_l in Hcb by lia.
  rewrite Hcol in Hcb. cbn [JS.bind defined] in Hcb.
  rewrite Hrow in Hcb. cbn [JS.bind defined] in Hcb.
  rewrite (Z.mul_comm (Cube.width c0) d), Z.div_mul in Hcb by lia.
  rewrite <- Hlen, index_len in Hcb. done.
Qed.

Lemma asCube_deeper_than_wide_witness :
  let a := Voxel.mk 255 0 0 1 in
  let c0 := Cube.mk "deep" "" [[[Some a; Some a]]] "" in
  let w := World.mk "" "" [c0] [[[1]]] "" in
  World.integrity w = Ok true ∧ ∃ e, World.asCube w = Throw e.
Proof.
  intros a c0 w. split; [reflexivity|].
  apply (asCube_deeper_than_wide w c0 2 1); reflexivity || done.
Defined.

Lemma index_elem_of {A} (l : list A) (i : Z) (x : A) :
  index l (Some i) = Some x → x ∈ l.
Proof. intros [_ ?]%index_Some. by eapply list_elem_of_lookup_2. Qed.

Lemma index3_flat2 {A} (l : list (list (list A))) (x y z : Z) (v : A) :
  index3 l x y z = Some v → v ∈ Array.flat2 l.
Proof.
  intros (col & row & Hcol%index_elem_of & Hrow%index_elem_of
          & Hv%index_elem_of)%index3_Some.
  unfold Array.flat2. apply list_elem_of_In, in_concat. exists row.
  split; [|by apply list_elem_of_In].
  apply in_concat. exists col. split; by apply list_elem_of_In.
Qed.

Lemma Cube_voxelTypes_hole (c : Cube.t) :
  None ∈ Array.flat2 (Cube.vox c) → Cube.voxelTypes c = Throw TypeError.
Proof.
  intros Hin. destruct (cells_split (Array.flat2 (Cube.vox c)))
    as [[vs Hvs]|(pre & post & Hcells)].
  - rewrite Hvs in Hin. by apply list_elem_of_fmap in Hin as (? & ? & _).
  - by apply (Cube_voxelTypes_undefined c pre post).
Qed.

(** X5. When the first palette cube is wider than deep, the space has two
    blocks along z and its first block is not empty, the cube [asCube]
    returns holds [undefined] at [(0, 0, cubeDepth)], so that its
    [voxelTypes] and [voxPairs] throw. *)
Theorem asCube_wider_than_deep (w : World.t) (out c0 : Cube.t) (cd d id : Z) :
  World.asCube w = Ok out →
  head (World.cube w) = Some c0 →
  Cube.depth c0 = Ok cd → World.depth w = Ok d →
  1 ≤ cd < Cube.width c0 → 2 ≤ d →
  index3 (World.space w) 0 0 0 = Some id → id ≠ 0 →
  index3 (Cube.vox out) 0 0 cd = Some None ∧
  Cube.voxelTypes out = Throw TypeError ∧
  Cube.voxPairs out = Throw TypeError.
Proof.
  intros Hout Hhead Hcd Hd Hwide Hd2 Hid Hid0.
  destruct (asCube_Ok_inv w out Hout)
    as (c0' & rest & h & d' & ch & cd' & Hc & Hh & Hd' & Hch & Hcd'
        & Hcw1 & Hch1 & _ & Hw1 & Hh1 & _).
  rewrite Hc in Hhead. injection Hhead as ->.
  rewrite Hd in Hd'. injection Hd' as <-.
  rewrite Hcd in Hcd'. injection Hcd' as <-.
  assert (index3 (Cube.vox out) 0 0 cd = Some None) as Hhole.
  { destruct (asCube_Ok_grid w c0 rest out h d ch cd) as (_ & _ & Hgrid);
      try done.
    destruct (Hgrid 0) as (ocol & Hocol & _ & Hrows); [nia|].
    destruct (Hrows 0) as (orow & Horow & _ & Hvs); [nia|].
    destruct (Hvs cd) as (v & Hv & Hcb); [nia|].
    apply index3_Some. exists ocol, orow. split_and!; [done..|].
    rewrite Hv. f_equal.
    rewrite (asCube_voxel_by_width w c0 rest ch) in Hcb; [|done|done|lia..].
    unfold World.voxel_by_width in Hcb.
    apply index3_Some in Hid as (col & row & Hcol & Hrow & Hid).
    rewrite !Z.div_0_l, (Z.div_small cd) in Hcb by lia.
    rewrite Hcol in Hcb. cbn [JS.bind defined] in Hcb.
    rewrite Hrow in Hcb. cbn [JS.bind defined] in Hcb.
    rewrite Hid, bool_decide_eq_false_2 in Hcb by congruence.
    apply bind_Ok_inv in Hcb as (c & Hc0%defined_Ok & Hcb).
    cbn [fmap option_fmap option_map] in Hc0.
    apply index_elem_of in Hc0.
    destruct (integrity_true_palette w c0 rest c Hc
                (asCube_Ok_integrity _ _ Hout) Hc0)
      as (ch' & cd' & _ & _ & _ & Hcdc & Hcd0).
    rewrite Hcd in Hcd0. injection Hcd0 as <-.
    apply Cube_depth_dims in Hcdc as (ccol & crow & Hccol & Hcrow & Hlen).
    rewrite !Z.rem_0_l, (Z.rem_small cd) in Hcb by lia.
    rewrite index_0, Hccol in Hcb. cbn [JS.bind defined] in Hcb.
    rewrite index_0, Hcrow in Hcb. cbn [JS.bind defined] in Hcb.
    rewrite Hlen, index_len in Hcb. by injection Hcb. }
  assert (Cube.voxelTypes out = Throw TypeError) as Htypes.
  { by apply Cube_voxelTypes_hole, (index3_flat2 _ 0 0 cd). }
  split_and!; [done | done |]. unfold Cube.voxPairs. by rewrite Htypes.
Qed.

Lemma asCube_wider_than_deep_witness :
  let a := Voxel.mk 255 0 0 1 in
  let b := Voxel.mk 0 255 0 1 in
  let c0 := Cube.mk "wide" "" [[[Some a]]; [[Some b]]] "" in
  let w := World.mk "" "" [c0] [[[1; 1]]] "" in
  let out := Cube.mk "" "" [[[Some a; None]]; [[Some b; None]]] "" in
  World.asCube w = Ok out ∧
  index3 (Cube.vox out) 0 0 1 = Some None ∧
  Cube.voxelTypes out = Throw TypeError ∧
  Cube.voxPairs out = Throw TypeError.
Proof.
  intros a b c0 w out. split; [reflexivity|].
  apply (asCube_wider_than_deep w out c0 1 2 1);
    reflexivity || done.
Defined.

(** ** Mapping over the space and over the grid *)

Lemma index_imap {A B} (f : nat → A → B) (l : list A) (i : Z) :
  index (imap f l) (Some i) = f (Z.to_nat i) <$> index l (Some i).
Proof.
  unfold index. destruct (Z.ltb_spec i 0); [done|]. apply list_lookup_imap.
Qed.

Lemma index_neg {A} (l : list A) (i : Z) : i < 0 → index l (Some i) = None.
Proof. intros Hi. unfold index. by destruct (Z.ltb_spec i 0); [|lia]. Qed.

Lemma index3_map3 {A B} (f : A → Z → Z → Z → B) (l : list (list (list A)))
    (i j k : Z) :
  index3 (map3 f l) i j k = (λ v, f v i j k) <$> index3 l i j k.
Proof.
  unfold index3, map3.
  destruct (Z.ltb_spec i 0) as [Hi|Hi]; [by rewrite !index_neg|].
  rewrite index_imap.
  destruct (index l (Some i)) as [col|]; [|done].
  cbn [fmap option_fmap option_map mbind option_bind].
  destruct (Z.ltb_spec j 0) as [Hj|Hj]; [by rewrite !index_neg|].
  rewrite index_imap.
  destruct (index col (Some j)) as [row|]; [|done].
  cbn [fmap option_fmap option_map mbind option_bind].
  destruct (Z.ltb_spec k 0) as [Hk|Hk]; [by rewrite !index_neg|].
  rewrite index_imap. by rewrite !Z2Nat.id by lia.
Qed.

Lemma head_imap {A B} (f : nat → A → B) (l : list A) :
  head (imap f l) = f 0%nat <$> head l.
Proof. by destruct l. Qed.

Lemma len_imap {A B} (f : nat → A → B) (l : list A) : len (imap f l) = len l.
Proof. unfold len. by rewrite length_imap. Qed.

Lemma length_concat_imap {A B} (g : nat → list A → list B)
    (col : list (list A)) :
  (∀ j row, length (g j row) = length row) →
  length (concat (imap g col)) = length (concat col).
Proof.
  revert g. induction col as [|row col IH]; intros g Hg; [done|].
  rewrite imap_cons. cbn [concat]. rewrite !length_app, Hg. f_equal.
  apply IH. intros j row'. apply Hg.
Qed.

Lemma length_flat2_imap {A B} (g : nat → list (list A) → list (list B))
    (l : list (list (list A))) :
  (∀ i col, length (concat (g i col)) = length (concat col)) →
  length (concat (concat (imap g l))) = length (concat (concat l)).
Proof.
  revert g. induction l as [|col l IH]; intros g Hg; [done|].
  rewrite imap_cons. cbn [concat]. rewrite !concat_app, !length_app, Hg.
  f_equal. apply IH. intros i col'. apply Hg.
Qed.

Lemma len_flat2_map3 {A B} (f : A → Z → Z → Z → B)
    (l : list (list (list A))) :
  len (Array.flat2 (map3 f l)) = len (Array.flat2 l).
Proof.
  unfold len, Array.flat2, map3. f_equal.
  apply length_flat2_imap. intros i col.
  apply length_concat_imap. intros j row. apply length_imap.
Qed.

Lemma imap_imap {A B C} (f : nat → A → B) (g : nat → B → C) (l : list A) :
  imap g (imap f l) = imap (λ i x, g i (f i x)) l.
Proof.
  revert f g. induction l as [|x l IH]; intros f g; [done|].
  rewrite !imap_cons. f_equal. apply IH.
Qed.

Lemma map3_map3 {A B C} (f : A → Z → Z → Z → B) (g : B → Z → Z → Z → C)
    (l : list (list (list A))) :
  map3 g (map3 f l) = map3 (λ v i j k, g (f v i j k) i j k) l.
Proof.
  unfold map3. rewrite imap_imap. apply imap_ext. intros i col _. simpl.
  rewrite imap_imap. apply imap_ext. intros j row _. simpl.
  apply imap_imap.
Qed.

Lemma head_map3_dims {A B} (f : A → Z → Z → Z → B)
    (l : list (list (list A))) :
  (col ← head (map3 f l); row ← head col;
   Some (len (map3 f l), len col, len row))
  = (col ← head l; row ← head col; Some (len l, len col, len row)).
Proof.
  unfold map3. rewrite head_imap, len_imap.
  destruct (head l) as [col|]; [|done].
  cbn [fmap option_fmap option_map mbind option_bind].
  rewrite head_imap, len_imap. destruct (head col) as [row|]; [|done].
  cbn [fmap option_fmap option_map mbind option_bind]. by rewrite len_imap.
Qed.

(** X10. [World.map] applies the callback to every id together with its
    position, and leaves the extents of the space, the palette and with
    them the outcome of the integrity check as they are. *)
Theorem World_map_space (f : Z → Z → Z → Z → Z) (w : World.t) :
  (∀ i j k, index3 (World.space (World.map f w)) i j k
            = (λ id, f id i j k) <$> index3 (World.space w) i j k) ∧
  World.cube (World.map f w) = World.cube w ∧
  World.extents (World.map f w) = World.extents w ∧
  World.integrity (World.map f w) = World.integrity w.
Proof.
  change (World.space (World.map f w)) with (map3 f (World.space w)).
  assert (World.extents (World.map f w) = World.extents w) as Hext.
  { apply (head_map3_dims f (World.space w)). }
  split_and!; [intros; apply index3_map3 | done | done |].
  destruct (World.extents w) as [[[wd h] d]|] eqn:Hw.
  - rewrite (integrity_unfold _ _ _ _ Hext), (integrity_unfold _ _ _ _ Hw).
    change (World.space (World.map f w)) with (map3 f (World.space w)).
    rewrite len_flat2_map3. done.
  - by rewrite (integrity_extents_None _ Hext), (integrity_extents_None _ Hw).
Qed.

(** X11. Two [World.map]s in a row are one [World.map] with the composed
    callback, which sees the same position twice. *)
Theorem World_map_map (f g : Z → Z → Z → Z → Z) (w : World.t) :
  World.map g (World.map f w)
  = World.map (λ id i j k, g (f id i j k) i j k) w.
Proof.
  unfold World.map at 1 3. cbn [World.name World.description World.cube].
  f_equal. apply (map3_map3 f g).
Qed.

(** X12. [Cube.map] applies the callback to every element of the grid
    together with its position and keeps the name, description, author and
    extents of the cube. *)
Theorem Cube_map_vox (f : option Voxel.t → Z → Z → Z → option Voxel.t)
    (c : Cube.t) :
  (∀ i j k, index3 (Cube.vox (Cube.map f c)) i j k
            = (λ v, f v i j k) <$> index3 (Cube.vox c) i j k) ∧
  Cube.name (Cube.map f c) = Cube.name c ∧
  Cube.description (Cube.map f c) = Cube.description c ∧
  Cube.author (Cube.map f c) = Cube.author c ∧
  Cube.dims (Cube.map f c) = Cube.dims c.
Proof.
  change (Cube.vox (Cube.map f c)) with (map3 f (Cube.vox c)).
  split_and!; [intros; apply index3_map3 | done..|].
  apply (head_map3_dims f (Cube.vox c)).
Qed.

(** ** The palette check after [addCube] *)

Lemma unequal_size_head (w : World.t) c0 rest c :
  World.cube w = c0 :: rest →
  World.unequal_size w c
  = JS.or_else (JS.not_equal (Ok (Cube.width c)) (Ok (Cube.width c0)))
      (JS.or_else (JS.not_equal (Cube.height c) (Cube.height c0))
                  (JS.not_equal (Cube.depth c) (Cube.depth c0))).
Proof.
  intros Hc. unfold World.unequal_size.
  by rewrite (World_cubeWidth_cons _ _ _ Hc), (World_cubeHeight_cons _ _ _ Hc),
    (World_cubeDepth_cons _ _ _ Hc).
Qed.

Lemma integrity_true_iff (w : World.t) :
  World.integrity w = Ok true ↔
  World.same_count w ∧
  Forall (λ c, World.unequal_size w c = Ok false) (World.cube w).
Proof.
  destruct (World.extents w) as [[[wd h] d]|] eqn:Hext.
  - rewrite (integrity_unfold _ _ _ _ Hext).
    pose proof Hext as (Hw & Hh & Hd)%World_extents_Some.
    assert (World.same_count w
            ↔ len (Array.flat2 (World.space w)) = wd * h * d) as ->.
    { unfold World.same_count. rewrite Hh, Hd, Hw. split.
      - by intros (? & ? & [= <-] & [= <-] & ?).
      - eauto. }
    destruct (Z.eqb_spec (wd * h * d) (len (Array.flat2 (World.space w))))
      as [Heq|Hne]; cbn [negb].
    + rewrite <- some_false. destruct (World.cube w) as [|c0 rest] eqn:Hc.
      * by split.
      * destruct (Array.some _ _) as [[]|]; cbn [JS.bind];
          (split; [intros ? | intros [_ ?]]; try done).
    + split; [done | by intros [? _]].
  - rewrite (integrity_extents_None w Hext). split; [done|].
    intros [(h & d & Hh & Hd & _) _].
    assert (World.extents w = Some (World.width w, h, d)) as Hsome
      by by apply World_extents_Some.
    congruence.
Qed.

Lemma addCube_cons (w : World.t) c0 rest (c : Cube.t) :
  World.cube w = c0 :: rest →
  World.addCube w c =
    match
      JS.or_else (JS.not_equal (Ok (Cube.width c0)) (Ok (Cube.width c)))
        (JS.or_else (JS.not_equal (Cube.height c0) (Cube.height c))
                    (JS.not_equal (Cube.depth c0) (Cube.depth c)))
    with
    | Ok false => (World.push w c, Ok ())
    | Ok true =>
        (w, Throw (Thrown
           "cube dimensions do not confrom to other cubes dimensions"))
    | Throw e => (w, Throw e)
    end.
Proof.
  intros Hc. unfold World.addCube.
  rewrite (World_cubeWidth_cons _ _ _ Hc), (World_cubeHeight_cons _ _ _ Hc),
    (World_cubeDepth_cons _ _ _ Hc), Hc.
  change (negb (len (c0 :: rest) =? 0)) with true. cbv iota.
  by destruct (JS.or_else _ _) as [[]|].
Qed.

Lemma not_equal_sym (x y : result Z) (t : bool) :
  JS.not_equal x y = Ok t → JS.not_equal y x = Ok t.
Proof.
  unfold JS.not_equal. destruct x, y; cbn [JS.bind]; try done.
  by rewrite Z.eqb_sym.
Qed.

Lemma addCube_Ok_inv (w : World.t) (c : Cube.t) :
  (World.addCube w c).2 = Ok () →
  (World.addCube w c).1 = World.push w c ∧
  ∀ c0 rest, World.cube w = c0 :: rest → World.unequal_size w c = Ok false.
Proof.
  destruct (World.cube w) as [|c0 rest] eqn:Hc.
  - unfold World.addCube. rewrite Hc. by split.
  - rewrite (addCube_cons w c0 rest c Hc).
    destruct (JS.or_else _ _) as [[]|] eqn:Hor; [done | | done].
    intros _. split; [done|]. intros ? ? [= <- <-].
    rewrite (unequal_size_head w c0 rest c Hc).
    unfold JS.or_else in *.
    destruct (JS.not_equal (Ok (Cube.width c0)) _) as [[]|] eqn:H1;
      cbn [JS.bind] in Hor; [done | | done].
    rewrite (not_equal_sym _ _ _ H1). cbn [JS.bind].
    destruct (JS.not_equal (Cube.height c0) _) as [[]|] eqn:H2;
      cbn [JS.bind] in Hor; [done | | done].
    rewrite (not_equal_sym _ _ _ H2). cbn [JS.bind].
    by apply not_equal_sym.
Qed.

Lemma integrity_push (w : World.t) (c : Cube.t) :
  World.integrity w = Ok true →
  is_Some (Cube.dims c) →
  (∀ c0 rest, World.cube w = c0 :: rest →
              World.unequal_size w c = Ok false) →
  World.integrity (World.push w c) = Ok true.
Proof.
  intros [Hcount Hpal]%integrity_true_iff [[[wd h] d] Hdims] Hfit.
  apply integrity_true_iff. split; [exact Hcount|].
  cbn [World.push World.cube].
  destruct (World.cube w) as [|c0 rest] eqn:Hc.
  - constructor; [|constructor].
    rewrite (unequal_size_dims (World.push w c) c [] c wd h d wd h d);
      [|by cbn [World.push World.cube]; rewrite Hc|done..].
    by rewrite !Z.eqb_refl.
  - assert (World.cube (World.push w c) = c0 :: (rest ++ [c])) as Hc'
      by (cbn [World.push World.cube]; by rewrite Hc).
    assert (∀ c', World.unequal_size (World.push w c) c'
                  = World.unequal_size w c') as Heq.
    { intros c'. by rewrite (unequal_size_head _ _ _ _ Hc'),
        (unequal_size_head _ _ _ _ Hc). }
    apply Forall_forall. intros c' Hin. rewrite Heq.
    change (c0 :: rest ++ [c]) with ((c0 :: rest) ++ [c]) in Hin.
    apply elem_of_app in Hin as [Hin|Hin%list_elem_of_singleton].
    + rewrite Forall_forall in Hpal. by apply Hpal.
    + subst c'. by apply (Hfit c0 rest).
Qed.

(** X13. [addCube] keeps the integrity check passing. When the check passes
    on a world and [addCube] returns for a cube whose extents can be read,
    the check passes on the world with the cube added. *)
Theorem addCube_keeps_integrity (w : World.t) (c : Cube.t) :
  World.integrity w = Ok true →
  is_Some (Cube.dims c) →
  (World.addCube w c).2 = Ok () →
  World.integrity (World.addCube w c).1 = Ok true.
Proof.
  intros Hint Hdims [Hpush Hfit]%addCube_Ok_inv.
  rewrite Hpush. by apply integrity_push.
Qed.

Lemma addCube_keeps_integrity_witness :
  let unit_cube := Cube.mk "" "" [[[Some Voxel.empty]]] "" in
  let w := World.mk "" "" [unit_cube] [[[1]]] "" in
  World.integrity w = Ok true ∧
  World.integrity (World.addCube w unit_cube).1 = Ok true.
Proof.
  intros unit_cube w. split; [reflexivity|].
  apply (addCube_keeps_integrity w unit_cube);
    [reflexivity | by eexists | reflexivity].
Defined.

(** Without extents to read, the first cube of a palette breaks the
    check. *)
Lemma addCube_no_extents_breaks_integrity :
  let no_cube := Cube.mk "" "" [] "" in
  let w := World.mk "" "" [] [[[0]]] "" in
  World.integrity w = Ok true ∧
  World.addCube w no_cube = (World.push w no_cube, Ok ()) ∧
  World.integrity (World.push w no_cube) = Throw TypeError.
Proof. by split_and!. Qed.

(** ** Empty cubes and empty worlds *)

Lemma new_Array_cases (n : Z) :
  new_Array n = if array_length n then Ok (replicate (Z.to_nat n) 0)
                else Throw RangeError.
Proof.
  unfold new_Array, array_length.
  destruct (Z.ltb_spec n 0), (Z.leb_spec 0 n); try lia; [done|].
  by destruct (Z.ltb_spec max_length n), (Z.leb_spec n max_length); try lia.
Qed.

(** A callback that ignores its arguments runs once per element, and not
    at all on an empty array. *)
Lemma map_from_const {A B} (m : result B) (i : Z) (l : list A) :
  Array.map_from (λ _ _, m) i l
  = match l with
    | [] => Ok []
    | _ => let* v := m in Ok (replicate (length l) v)
    end.
Proof.
  revert i. induction l as [|x l IH]; intros i; [done|].
  cbn [Array.map_from]. destruct m as [v|e]; [|done]. cbn [JS.bind].
  rewrite IH. by destruct l.
Qed.

Lemma map_const {A B} (m : result B) (l : list A) :
  Array.map (λ _ _, m) l
  = match l with
    | [] => Ok []
    | _ => let* v := m in Ok (replicate (length l) v)
    end.
Proof. apply map_from_const. Qed.

Lemma replicate_nil_iff {A} (n : Z) (x : A) :
  0 ≤ n → replicate (Z.to_nat n) x = [] ↔ n = 0.
Proof.
  intros Hn. split; [|by intros ->].
  intros H%(f_equal length). rewrite length_replicate in H. simpl in H. lia.
Qed.

Lemma Cube_empty_eq (x y z : Z) :
  Cube.empty x y z
  = if array_length x &&
       ((x =? 0) || array_length y && ((y =? 0) || array_length z))
    then Ok (Cube.mk "" "" (empty_grid x y z) "")
    else Throw RangeError.
Proof.
  unfold Cube.empty, empty_grid. rewrite new_Array_cases.
  destruct (array_length x) eqn:Hx; [|done]. cbn [JS.bind andb].
  apply andb_prop in Hx as [Hx0%Z.leb_le _].
  rewrite map_const.
  destruct (Z.eqb_spec x 0) as [->|Hx1]; [done|]. cbn [orb].
  destruct (replicate (Z.to_nat x) 0) as [|? xs] eqn:Hxs;
    [by apply replicate_nil_iff in Hxs|].
  rewrite <- Hxs, length_replicate. clear Hxs.
  rewrite new_Array_cases.
  destruct (array_length y) eqn:Hy; [|done]. cbn [JS.bind andb].
  apply andb_prop in Hy as [Hy0%Z.leb_le _].
  rewrite map_const.
  destruct (Z.eqb_spec y 0) as [->|Hy1]; [done|]. cbn [orb].
  destruct (replicate (Z.to_nat y) 0) as [|? ys] eqn:Hys;
    [by apply replicate_nil_iff in Hys|].
  rewrite <- Hys, length_replicate. clear Hys.
  rewrite new_Array_cases.
  destruct (array_length z) eqn:Hz; [|done]. cbn [JS.bind].
  rewrite map_const.
  destruct (replicate (Z.to_nat z) 0) as [|? zs] eqn:Hzs.
  - apply replicate_nil_iff in Hzs as ->; [done|].
    by apply andb_prop in Hz as [?%Z.leb_le _].
  - rewrite <- Hzs, length_replicate. done.
Qed.

Lemma filter_none {A} (P : A → Prop) `{!∀ x, Decision (P x)} (l : list A) :
  Forall (λ x, ¬ P x) l → filter P l = [].
Proof.
  induction 1 as [|x l Hx _ IH]; [done|]. by rewrite filter_cons_False.
Qed.

(** A grid of invisible voxels has no voxel types. *)
Lemma Cube_invisible_voxelTypes (c : Cube.t) :
  Forall (λ v, ∃ x, v = Some x ∧ Voxel.a x = 0) (Array.flat2 (Cube.vox c)) →
  Cube.voxelTypes c = Ok [] ∧ Cube.voxPairs c = Ok [].
Proof.
  intros Hall.
  assert (Cube.voxelTypes c = Ok []) as Htypes.
  { assert (Forall is_Some (Array.flat2 (Cube.vox c))) as [vs Hvs]%all_defined.
    { eapply Forall_impl; [exact Hall|]. intros ? (x & -> & _). by eexists. }
    rewrite (Cube_voxelTypes_defined c vs Hvs). f_equal.
    apply filter_none, Forall_forall. intros v Hv Hvis.
    apply (proj1 (elem_of_first_seen _ _)) in Hv.
    rewrite Hvs, Forall_fmap, Forall_forall in Hall.
    destruct (Hall v Hv) as (x & [= <-] & Ha). done. }
  split; [done|]. unfold Cube.voxPairs. by rewrite Htypes.
Qed.

Lemma empty_grid_flat2 (x y z : Z) :
  Forall (λ v, v = Some Voxel.empty) (Array.flat2 (empty_grid x y z)).
Proof.
  unfold Array.flat2, empty_grid.
  apply Forall_concat, Forall_concat, Forall_replicate, Forall_replicate,
    Forall_replicate. done.
Qed.

Lemma len_replicate {A} (n : Z) (x : A) :
  0 ≤ n → len (replicate (Z.to_nat n) x) = n.
Proof. intros Hn. unfold len. rewrite length_replicate. lia. Qed.

Lemma head_replicate {A} (n : Z) (x : A) :
  1 ≤ n → head (replicate (Z.to_nat n) x) = Some x.
Proof. intros Hn. apply head_replicate_Some. lia. Qed.

Lemma empty_grid_dims (x y z : Z) :
  1 ≤ x → 1 ≤ y → 0 ≤ z →
  Cube.dims (Cube.mk "" "" (empty_grid x y z) "") = Some (x, y, z).
Proof.
  intros Hx Hy Hz. unfold Cube.dims, empty_grid. cbn [Cube.vox].
  rewrite head_replicate by done. cbn [mbind option_bind].
  rewrite head_replicate by done. cbn [mbind option_bind].
  by rewrite !len_replicate by lia.
Qed.

(** X14. [Cube.empty(x,y,z)], for integers. It returns the cube of
    [x * y * z] default voxels with empty name, description and author,
    and throws a [RangeError] exactly when a length it reaches is not an
    array length: [y] is only reached when [x] is not 0, and [z] when
    neither [x] nor [y] is 0. A cube it returns holds the default voxel at
    every position, so it has no voxel type and no mask; with [x] and [y]
    at least 1 its extents are [(x, y, z)]. *)
Theorem Cube_empty_spec (x y z : Z) :
  Cube.empty x y z
  = (if array_length x &&
        ((x =? 0) || array_length y && ((y =? 0) || array_length z))
     then Ok (Cube.mk "" "" (empty_grid x y z) "")
     else Throw RangeError) ∧
  ∀ c, Cube.empty x y z = Ok c →
    (∀ i j k v, index3 (Cube.vox c) i j k = Some v → v = Some Voxel.empty) ∧
    Cube.all_voxels c ∧
    Cube.voxelTypes c = Ok [] ∧ Cube.voxPairs c = Ok [] ∧
    (1 ≤ x → 1 ≤ y → Cube.dims c = Some (x, y, z)).
Proof.
  split; [apply Cube_empty_eq|]. intros c. rewrite Cube_empty_eq.
  destruct (array_length x && _) eqn:Hvalid; [|done]. intros [= <-].
  pose proof (empty_grid_flat2 x y z) as Hflat.
  assert (Forall (λ v, ∃ x0, v = Some x0 ∧ Voxel.a x0 = 0)
            (Array.flat2 (empty_grid x y z))) as Hinv.
  { eapply Forall_impl; [exact Hflat|]. intros ? ->. by eexists. }
  destruct (Cube_invisible_voxelTypes (Cube.mk "" "" (empty_grid x y z) "") Hinv)
    as [Htypes Hpairs].
  split_and!; try done.
  - intros i j k v Hv%index3_flat2. rewrite Forall_forall in Hflat.
    by apply Hflat.
  - apply Cube_all_voxels. cbn [Cube.vox].
    apply all_defined. eapply Forall_impl; [exact Hflat|]. intros ? ->.
    by eexists.
  - intros Hx Hy. apply empty_grid_dims; [done..|].
    apply andb_prop in Hvalid as [_ Hrest].
    destruct (Z.eqb_spec x 0); [lia|]. cbn [orb] in Hrest.
    apply andb_prop in Hrest as [_ Hz].
    destruct (Z.eqb_spec y 0); [lia|]. cbn [orb] in Hz.
    by apply andb_prop in Hz as [?%Z.leb_le _].
Qed.





Lemma head_replicate_0 {A} (x : A) : head (replicate (Z.to_nat 0) x) = None.
Proof. done. Qed.



(** ** What the expanded cube holds *)

Lemma flat2_index3 {A} (l : list (list (list A))) (v : A) :
  v ∈ Array.flat2 l → ∃ i j k, index3 l i j k = Some v.
Proof.
  unfold Array.flat2.
  intros (row & (col & Hcol & Hrow)%in_concat & Hv)%list_elem_of_In%in_concat.
  apply list_elem_of_In, list_elem_of_lookup in Hcol as [i Hi].
  apply list_elem_of_In, list_elem_of_lookup in Hrow as [j Hj].
  apply list_elem_of_In, list_elem_of_lookup in Hv as [k Hk].
  exists (Z.of_nat i), (Z.of_nat j), (Z.of_nat k).
  apply index3_Some. exists col, row. by rewrite !index_nat.
Qed.

Lemma index_lt {A} (l : list A) (i : Z) (x : A) :
  index l (Some i) = Some x → 0 ≤ i < len l.
Proof.
  intros [Hi Hl%lookup_lt_Some]%index_Some. unfold len. lia.
Qed.

(** Every element of the cube [asCube] returns is the value of the
    callback at its position. *)
Lemma asCube_Ok_cell (w : World.t) (out : Cube.t) (x y z : Z)
    (v : option Voxel.t) :
  World.asCube w = Ok out →
  index3 (Cube.vox out) x y z = Some v →
  World.asCube_voxel w x y z = Ok v.
Proof.
  intros Hout (col & row & Hcol & Hrow & Hv)%index3_Some.
  destruct (asCube_Ok_inv w out Hout)
    as (c0 & rest & h & d & ch & cd & Hc & Hh & Hd & Hch & Hcd & _).
  destruct (asCube_Ok_grid w c0 rest out h d ch cd) as (_ & Hlen & Hgrid);
    try done.
  pose proof (index_lt _ _ _ Hcol) as Hx. rewrite Hlen in Hx.
  destruct (Hgrid x Hx) as (col' & Hcol' & Hlcol & Hrows).
  rewrite Hcol in Hcol'. injection Hcol' as <-.
  pose proof (index_lt _ _ _ Hrow) as Hy. rewrite Hlcol in Hy.
  destruct (Hrows y Hy) as (row' & Hrow' & Hlrow & Hvs).
  rewrite Hrow in Hrow'. injection Hrow' as <-.
  pose proof (index_lt _ _ _ Hv) as Hz. rewrite Hlrow in Hz.
  destruct (Hvs z Hz) as (v' & Hv' & Hcb).
  rewrite Hv in Hv'. by injection Hv' as <-.
Qed.

(** Where a value of the callback comes from: the default voxel of an
    empty block, or an element of the grid of a palette cube. *)
Lemma asCube_voxel_origin (w : World.t) (x y z : Z) (v : option Voxel.t) :
  World.asCube_voxel w x y z = Ok v →
  (v = Some Voxel.empty ∧ 0 ∈ Array.flat2 (World.space w)) ∨
  (∃ id c, id ∈ Array.flat2 (World.space w) ∧ id ≠ 0 ∧
           index (World.cube w) (Some (id - 1)) = Some c ∧
           (v = None ∨ v ∈ Array.flat2 (Cube.vox c))).
Proof.
  unfold World.asCube_voxel. intros (oid & Hid & Hv)%bind_Ok_inv.
  apply bind_Ok_inv in Hid as (cw & _ & Hid).
  apply bind_Ok_inv in Hid as (ch & _ & Hid).
  apply bind_Ok_inv in Hid as (col & Hcol%defined_Ok & Hid).
  apply bind_Ok_inv in Hid as (cw' & _ & Hid).
  apply bind_Ok_inv in Hid as (row & Hrow%defined_Ok & [= <-]).
  destruct (floor_div x cw) as [i|] eqn:Hi; [|done].
  destruct (floor_div y ch) as [j|] eqn:Hj; [|done].
  destruct (floor_div z cw') as [k|] eqn:Hk;
    [|by apply bind_Ok_inv in Hv as (? & ? & _)].
  destruct (index row (Some k)) as [id|] eqn:Hidx;
    [|by apply bind_Ok_inv in Hv as (? & ? & _)].
  assert (id ∈ Array.flat2 (World.space w)) as Hin.
  { apply (index3_flat2 _ i j k), index3_Some. eauto. }
  destruct (decide (id = 0)) as [->|Hne].
  - left. rewrite bool_decide_eq_true_2 in Hv by done. by injection Hv as <-.
  - right. rewrite bool_decide_eq_false_2 in Hv by congruence.
    apply bind_Ok_inv in Hv as (c & Hc%defined_Ok & Hv).
    cbn [fmap option_fmap option_map] in Hc.
    exists id, c. split_and!; [done..|].
    apply bind_Ok_inv in Hv as (? & _ & Hv).
    apply bind_Ok_inv in Hv as (? & _ & Hv).
    apply bind_Ok_inv in Hv as (ccol & Hccol%defined_Ok & Hv).
    apply bind_Ok_inv in Hv as (? & _ & Hv).
    apply bind_Ok_inv in Hv as (crow & Hcrow%defined_Ok & [= <-]).
    destruct (index crow _) as [v|] eqn:Hcell; [|by left]. right.
    cbn [mjoin option_join].
    destruct (remainder x _) as [i'|]; [|done].
    destruct (remainder y _) as [j'|]; [|done].
    destruct (remainder z _) as [k'|]; [|done].
    apply (index3_flat2 _ i' j' k'), index3_Some. eauto.
Qed.

(** X8. Expanding a world whose space holds only the id 0 gives, when
    [asCube] returns, a cube of default voxels: it has no voxel type and
    no mask, whatever the palette holds. *)
Theorem asCube_all_empty (w : World.t) (out : Cube.t) :
  Forall (λ id, id = 0) (Array.flat2 (World.space w)) →
  World.asCube w = Ok out →
  (∀ i j k v, index3 (Cube.vox out) i j k = Some v → v = Some Voxel.empty) ∧
  Cube.voxelTypes out = Ok [] ∧ Cube.voxPairs out = Ok [].
Proof.
  intros Hzero Hout. rewrite Forall_forall in Hzero.
  assert (∀ i j k v, index3 (Cube.vox out) i j k = Some v
                     → v = Some Voxel.empty) as Hcells.
  { intros i j k v Hv%(asCube_Ok_cell w out _ _ _ _ Hout).
    apply asCube_voxel_origin in Hv
      as [[-> _]|(id & c & Hid%Hzero & Hne & _)]; done. }
  split; [done|]. apply Cube_invisible_voxelTypes, Forall_forall.
  intros v (i & j & k & Hv%Hcells)%flat2_index3. subst v. by eexists.
Qed.

Lemma asCube_all_empty_witness :
  let a := Voxel.mk 255 0 0 1 in
  let c0 := Cube.mk "" "" [[[Some a]]] "" in
  let w := World.mk "" "" [c0] [[[0; 0]]] "" in
  let out := Cube.mk "" "" [[[Some Voxel.empty; Some Voxel.empty]]] "" in
  World.asCube w = Ok out ∧
  Cube.voxelTypes out = Ok [] ∧ Cube.voxPairs out = Ok [].
Proof.
  intros a c0 w out. split; [reflexivity|].
  apply (asCube_all_empty w out); [by repeat constructor | reflexivity].
Defined.

Lemma World_voxelTypes_Ok (w : World.t) (wl : list Voxel.t) :
  World.voxelTypes w = Ok wl →
  ∀ c v, c ∈ World.cube w → Some v ∈ Array.flat2 (Cube.vox c) →
         Voxel.a v ≠ 0 → v ∈ wl.
Proof.
  intros Hwl c v Hc Hv Hvis. pose proof Hwl as Hwl'.
  unfold World.voxelTypes in Hwl'.
  apply bind_Ok_inv in Hwl' as (ls & Hls & _).
  destruct (World_voxelTypes_union w ls Hls) as [Hunion _].
  rewrite Hunion in Hwl. injection Hwl as <-.
  apply map_Ok in Hls as [_ Hls].
  apply list_elem_of_lookup in Hc as [n Hn].
  destruct (Hls n c Hn) as (lc & Hlc%list_elem_of_lookup_2 & Htypes).
  apply Cube_voxelTypes_Ok in Htypes as (vs & Hvs & ->).
  apply elem_of_first_seen, list_elem_of_In, in_concat.
  exists (filter (λ v, Voxel.a v ≠ 0) (first_seen vs)).
  split; apply list_elem_of_In; [done|].
  apply list_elem_of_filter. split; [done|]. apply elem_of_first_seen.
  rewrite Hvs in Hv. by apply list_elem_of_fmap in Hv as (? & [= <-] & ?).
Qed.

(** X9. Expanding invents no voxel type. Every voxel type of the cube
    [asCube] returns is a voxel type of the world. *)
Theorem asCube_voxelTypes_subset (w : World.t) (out : Cube.t)
    (wl ol : list Voxel.t) :
  World.asCube w = Ok out →
  World.voxelTypes w = Ok wl →
  Cube.voxelTypes out = Ok ol →
  ∀ v, v ∈ ol → v ∈ wl.
Proof.
  intros Hout Hwl (vs & Hvs & ->)%Cube_voxelTypes_Ok v
    [Hvis Hv]%list_elem_of_filter.
  apply (proj1 (elem_of_first_seen _ _)) in Hv.
  assert (Some v ∈ Array.flat2 (Cube.vox out)) as Hcell.
  { rewrite Hvs. apply list_elem_of_fmap. eauto. }
  apply flat2_index3 in Hcell as (i & j & k & Hcell).
  apply (asCube_Ok_cell w out _ _ _ _ Hout), asCube_voxel_origin in Hcell
    as [[[= ->] _]|(id & c & _ & _ & Hc%index_elem_of & [?|Hin])];
    [done | done |].
  by apply (World_voxelTypes_Ok w wl Hwl c v).
Qed.

Lemma asCube_voxelTypes_subset_witness :
  let a := Voxel.mk 255 0 0 1 in
  let b := Voxel.mk 0 255 0 1 in
  let used := Cube.mk "" "" [[[Some a]]] "" in
  let unused := Cube.mk "" "" [[[Some b]]] "" in
  let w := World.mk "" "" [used; unused] [[[1; 0]]] "" in
  let out := Cube.mk "" "" [[[Some a; Some Voxel.empty]]] "" in
  World.asCube w = Ok out ∧
  World.voxelTypes w = Ok [a; b] ∧ Cube.voxelTypes out = Ok [a] ∧
  ∀ v, v ∈ [a] → v ∈ [a; b].
Proof.
  intros a b used unused w out. split_and!; [reflexivity..|].
  apply (asCube_voxelTypes_subset w out [a; b] [a]); reflexivity.
Defined.


(** ** The "new cube" button *)

Lemma map_from_app {A B} (f : A → Z → result B) (i : Z) (l k : list A) :
  Array.map_from f i (l ++ k)
  = let* a := Array.map_from f i l in
    let* b := Array.map_from f (i + len l) k in
    Ok (a ++ b).
Proof.
  revert i. induction l as [|x l IH]; intros i.
  - cbn [app Array.map_from JS.bind len length Z.of_nat].
    rewrite Z.add_0_r. by destruct (Array.map_from f i k).
  - cbn [app Array.map_from]. destruct (f x i) as [y|]; [|done].
    cbn [JS.bind]. rewrite IH.
    replace (i + 1 + len l) with (i + len (x :: l)) by (unfold len; simpl; lia).
    destruct (Array.map_from f (i + 1) l) as [a|]; [|done]. cbn [JS.bind].
    by destruct (Array.map_from f _ k).
Qed.

(** A cube without voxel types adds nothing to the voxel types of a
    world. *)
Lemma World_voxelTypes_push (w : World.t) (c : Cube.t) :
  Cube.voxelTypes c = Ok [] →
  World.voxelTypes (World.push w c) = World.voxelTypes w.
Proof.
  intros Hc. unfold World.voxelTypes, Array.map. cbn [World.push World.cube].
  rewrite map_from_app.
  destruct (Array.map_from _ 0 (World.cube w)) as [ls|]; [|done].
  cbn [JS.bind Array.map_from]. rewrite Hc. cbn [JS.bind].
  rewrite reduce_app.
  destruct (Array.reduce World.add_types ls []) as [a|]; [|done].
  cbn [JS.bind Array.reduce]. rewrite add_types_unseen. cbn [JS.bind].
  by rewrite filter_nil, app_nil_r.
Qed.

(** X16. The "new cube" button. On an empty palette the handler throws "no
    block defined" and leaves the world as it is. On a palette whose first
    cube has extents [(x, y, z)] it appends the cube of [x * y * z]
    default voxels, which keeps a passing integrity check passing and the
    voxel types of the world as they are. *)
Theorem newCube_spec (w : World.t) :
  (World.cube w = [] → Menu.newCube w = (w, Throw World.no_block)) ∧
  (∀ c0 x y z,
     head (World.cube w) = Some c0 → Cube.dims c0 = Some (x, y, z) →
     x ≤ max_length → y ≤ max_length → z ≤ max_length →
     let e := Cube.mk "" "" (empty_grid x y z) "" in
     Menu.newCube w = (World.push w e, Ok ()) ∧
     (World.integrity w = Ok true →
      World.integrity (World.push w e) = Ok true) ∧
     World.voxelTypes (World.push w e) = World.voxelTypes w).
Proof.
  split.
  - intros Hnil. unfold Menu.newCube.
    by rewrite (proj1 (World_cube_getters_nil w Hnil)).
  - intros c0 x y z Hhead Hdims Hx Hy Hz e.
    destruct (World.cube w) as [|c0' rest] eqn:Hc; [done|].
    injection Hhead as ->.
    pose proof Hdims as (Hw & Hh & Hd)%Cube_dims_Some.
    assert (1 ≤ x ∧ 1 ≤ y ∧ 0 ≤ z) as (Hx1 & Hy1 & Hz0).
    { apply Cube_depth_dims in Hd as (col & row & Hcol & Hrow & ->).
      apply Cube_height_dims in Hh as (col' & Hcol' & ->).
      rewrite Hcol in Hcol'. injection Hcol' as <-.
      rewrite <- Hw. unfold Cube.width, len.
      destruct (Cube.vox c0); [done|]. destruct col; [done|]. simpl. lia. }
    assert (Cube.empty x y z = Ok e) as Hempty.
    { rewrite Cube_empty_eq. unfold array_length.
      repeat match goal with
      | |- context [?a <=? ?b] => destruct (Z.leb_spec a b); [|lia]
      end. cbn [andb]. by rewrite !orb_true_r. }
    assert (Cube.dims e = Some (x, y, z)) as Hdims_e
      by by apply empty_grid_dims.
    assert (World.unequal_size w e = Ok false) as Hfit.
    { rewrite (unequal_size_dims w c0 rest e x y z x y z) by done.
      by rewrite !Z.eqb_refl. }
    split_and!.
    + unfold Menu.newCube.
      rewrite (World_cubeWidth_cons _ _ _ Hc), (World_cubeHeight_cons _ _ _ Hc),
        (World_cubeDepth_cons _ _ _ Hc), Hw, Hh, Hd. cbn [JS.bind].
      rewrite Hempty. rewrite (addCube_cons w c0 rest e Hc).
      rewrite (unequal_size_head w c0 rest e Hc) in Hfit.
      unfold JS.or_else in *.
      destruct (JS.not_equal (Ok (Cube.width e)) _) as [[]|] eqn:H1;
        cbn [JS.bind] in Hfit; [done | | done].
      rewrite (not_equal_sym _ _ _ H1). cbn [JS.bind].
      destruct (JS.not_equal (Cube.height e) _) as [[]|] eqn:H2;
        cbn [JS.bind] in Hfit; [done | | done].
      rewrite (not_equal_sym _ _ _ H2). cbn [JS.bind].
      by rewrite (not_equal_sym _ _ _ Hfit).
    + intros Hint. apply integrity_push; [done | by eexists |].
      by intros ? ? _.
    + apply World_voxelTypes_push.
      apply Cube_invisible_voxelTypes. cbn [Cube.vox].
      eapply Forall_impl; [apply empty_grid_flat2|]. intros ? ->. by eexists.
Qed.

Lemma newCube_spec_witness :
  let a := Voxel.mk 255 0 0 1 in
  let c0 := Cube.mk "" "" [[[Some a; Some a]]] "" in
  let e := Cube.mk "" "" [[[Some Voxel.empty; Some Voxel.empty]]] "" in
  let w := World.mk "" "" [c0] [[[1]]] "" in
  Menu.newCube (World.mk "" "" [] [[[0]]] "")
  = (World.mk "" "" [] [[[0]]] "", Throw World.no_block) ∧
  Menu.newCube w = (World.push w e, Ok ()) ∧
  World.voxelTypes (World.push w e) = World.voxelTypes w.
Proof.
  intros a c0 e w. split.
  - by apply (proj1 (newCube_spec (World.mk "" "" [] [[[0]]] ""))).
  - destruct (proj2 (newCube_spec w) c0 1 1 2) as (Hnew & _ & Htypes); done.
Defined.

(** ** Masks of the voxel types *)

Lemma map_from_pure {A B} (f : A → Z → result B) (g : Z → A → B) (i : Z)
    (l : list A) :
  (∀ (n : nat) x, l !! n = Some x →
     f x (i + Z.of_nat n) = Ok (g (i + Z.of_nat n) x)) →
  Array.map_from f i l = Ok (imap (λ n, g (i + Z.of_nat n)) l).
Proof.
  revert i. induction l as [|x l IH]; intros i Hf; [done|].
  cbn [Array.map_from]. pose proof (Hf 0%nat x eq_refl) as H0.
  rewrite Z.add_0_r in H0. rewrite H0. cbn [JS.bind].
  rewrite (IH (i + 1)).
  - cbn [JS.bind]. rewrite imap_cons. rewrite Z.add_0_r. do 2 f_equal.
    apply imap_ext. intros n y _. simpl. f_equal. lia.
  - intros n y Hn. specialize (Hf (S n) y Hn).
    by replace (i + 1 + Z.of_nat n) with (i + Z.of_nat (S n)) by lia.
Qed.

Lemma map_pure {A B} (f : A → Z → result B) (g : Z → A → B) (l : list A) :
  (∀ (n : nat) x, l !! n = Some x → f x (Z.of_nat n) = Ok (g (Z.of_nat n) x)) →
  Array.map f l = Ok (imap (λ n, g (Z.of_nat n)) l).
Proof. intros Hf. unfold Array.map. by rewrite (map_from_pure f g 0 l). Qed.

(** The grid [map(f)] builds when the callback returns at every element
    of the grid. *)
Lemma map_vox_pure {B} (f : option Voxel.t → Z → Z → Z → result B)
    (g : option Voxel.t → Z → Z → Z → B) (c : Cube.t) :
  (∀ i j k v, index3 (Cube.vox c) i j k = Some v →
              f v i j k = Ok (g v i j k)) →
  Cube.map_vox f c = Ok (map3 g (Cube.vox c)).
Proof.
  intros Hf. unfold Cube.map_vox, map3.
  apply (map_pure _ (λ i x, imap (λ j y, imap (λ k z,
           g z i (Z.of_nat j) (Z.of_nat k)) y) x)).
  intros i col Hcol.
  apply (map_pure _ (λ j y, imap (λ k z, g z (Z.of_nat i) j (Z.of_nat k)) y)).
  intros j row Hrow.
  apply (map_pure _ (λ k z, g z (Z.of_nat i) (Z.of_nat j) k)).
  intros k v Hv. apply Hf, index3_Some. exists col, row.
  by rewrite !index_nat.
Qed.

(** With a callback that returns voxels, the grid is the one of
    [Cube.map]. *)
Lemma map_vox_map (f : option Voxel.t → Z → Z → Z → option Voxel.t)
    (c : Cube.t) :
  Cube.map_vox (λ v i j k, Ok (f v i j k)) c = Ok (Cube.vox (Cube.map f c)).
Proof. by apply map_vox_pure. Qed.

Lemma Voxel_eq_defined (x y : Voxel.t) :
  Voxel.eq (Some x) (Some y) = Ok (bool_decide (x = y)).
Proof.
  unfold Voxel.eq. cbn [defined JS.bind]. f_equal.
  destruct (Voxel.eqb x y) eqn:E.
  - apply Voxel_eqb_eq in E. by rewrite bool_decide_eq_true_2.
  - apply Voxel_eqb_false in E. by rewrite bool_decide_eq_false_2.
Qed.

Lemma Cube_voxelTypes_cells (c : Cube.t) (types : list Voxel.t) :
  Cube.voxelTypes c = Ok types →
  Cube.all_voxels c ∧ NoDup types ∧
  ∀ v, v ∈ types ↔ Some v ∈ Array.flat2 (Cube.vox c) ∧ Voxel.a v ≠ 0.
Proof.
  intros (vs & Hvs & ->)%Cube_voxelTypes_Ok. split_and!.
  - apply Cube_all_voxels. by exists vs.
  - apply NoDup_filter, NoDup_first_seen.
  - intros v. rewrite list_elem_of_filter, elem_of_first_seen, Hvs.
    rewrite (list_elem_of_fmap_inj Some). tauto.
Qed.

(** X17. The masks of [voxPairs]. When the voxel types of a cube can be
    computed, [voxPairs] returns one pair for each of them, in their
    order; the mask of a type has an element wherever the grid has one
    and holds [true] exactly at the positions of the voxels equal to the
    type. So every visible voxel is marked by the mask of exactly one
    pair, and an invisible voxel by none. *)
Theorem voxPairs_masks (c : Cube.t) (types : list Voxel.t) :
  Cube.voxelTypes c = Ok types →
  ∃ pairs,
    Cube.voxPairs c = Ok pairs ∧ pairs.*2 = types ∧
    (∀ mask t, (mask, t) ∈ pairs → ∀ i j k,
       index3 mask i j k
       = (λ v, bool_decide (v = Some t)) <$> index3 (Cube.vox c) i j k) ∧
    (∀ i j k v, index3 (Cube.vox c) i j k = Some (Some v) →
       (∃ mask, (mask, v) ∈ pairs) ↔ Voxel.a v ≠ 0).
Proof.
  intros Htypes.
  pose proof (Cube_voxelTypes_cells c types Htypes) as (Hall & _ & Hin).
  assert (∀ t, Cube.map_vox (λ v _ _ _, Voxel.eq v (Some t)) c
               = Ok (map3 (λ v _ _ _, bool_decide (v = Some t)) (Cube.vox c)))
    as Hmask.
  { intros t. apply map_vox_pure. intros i j k v Hv.
    apply Cube_all_voxels in Hall as [vs Hvs].
    apply index3_flat2 in Hv. rewrite Hvs in Hv.
    apply list_elem_of_fmap in Hv as (x & -> & _).
    rewrite Voxel_eq_defined. f_equal. apply bool_decide_ext.
    split; [by intros -> | by intros [= ->]]. }
  exists ((λ t, (map3 (λ v _ _ _, bool_decide (v = Some t)) (Cube.vox c), t))
          <$> types).
  split_and!.
  - unfold Cube.voxPairs. rewrite Htypes. cbn [JS.bind].
    rewrite (map_pure _ (λ _ t,
      (map3 (λ v _ _ _, bool_decide (v = Some t)) (Cube.vox c), t))).
    + f_equal. clear. induction types as [|t l IH]; [done|].
      rewrite imap_cons, fmap_cons. f_equal. exact IH.
    + intros n t _. by rewrite Hmask.
  - rewrite <- list_fmap_compose. clear. induction types as [|t l IH]; [done|].
    rewrite fmap_cons. by f_equal.
  - intros mask t (t' & [= -> ->] & _)%list_elem_of_fmap i j k.
    apply index3_map3.
  - intros i j k v Hv%index3_flat2. split.
    + intros [mask (t & [= _ ->] & Ht)%list_elem_of_fmap].
      by apply Hin in Ht as [_ ?].
    + intros Ha. eexists. apply list_elem_of_fmap. exists v.
      split; [done|]. by apply Hin.
Qed.

Lemma voxPairs_masks_witness :
  let a := Voxel.mk 255 0 0 1 in
  let b := Voxel.mk 0 255 0 1 in
  let c := Cube.mk "" ""
             [[[Some a; Some Voxel.empty]; [Some b; Some a]]] "" in
  Cube.voxelTypes c = Ok [a; b] ∧
  Cube.voxPairs c
  = Ok [([[[true; false]; [false; true]]], a);
        ([[[false; false]; [true; false]]], b)] ∧
  ∃ pairs, Cube.voxPairs c = Ok pairs ∧ pairs.*2 = [a; b].
Proof.
  intros a b c. split_and!; [reflexivity..|].
  destruct (voxPairs_masks c [a; b] eq_refl) as (pairs & Hpairs & Htypes & _).
  by exists pairs.
Defined.

(** ** Deserialization *)

Lemma map_from_Throw {A B} (f : A → Z → result B) (i : Z) (l : list A) e :
  Array.map_from f i l = Throw e →
  ∃ (n : nat) x, l !! n = Some x ∧ f x (i + Z.of_nat n) = Throw e.
Proof.
  revert i. induction l as [|x l IH]; intros i; [done|].
  cbn [Array.map_from]. destruct (f x i) as [y|e'] eqn:Hx; cbn [JS.bind].
  - destruct (Array.map_from f (i + 1) l) as [k|e'] eqn:Hl; [done|].
    cbn [JS.bind]. intros [= ->].
    destruct (IH _ Hl) as (n & x' & Hn & Hx').
    exists (S n), x'. split; [done|].
    by replace (i + Z.of_nat (S n)) with (i + 1 + Z.of_nat n) by lia.
  - intros [= ->]. exists 0%nat, x. by rewrite Z.add_0_r.
Qed.

Lemma map_Throw {A B} (f : A → Z → result B) (l : list A) e :
  Array.map f l = Throw e →
  ∃ (n : nat) x, l !! n = Some x ∧ f x (Z.of_nat n) = Throw e.
Proof. apply map_from_Throw. Qed.

Lemma map3_pure {A B} (f : A → Z → Z → Z → result B) (g : A → Z → Z → Z → B)
    (l : list (list (list A))) :
  (∀ i j k v, index3 l i j k = Some v → f v i j k = Ok (g v i j k)) →
  Array.map (λ x i, Array.map (λ y j, Array.map (λ z k, f z i j k) y) x) l
  = Ok (map3 g l).
Proof.
  intros Hf. unfold map3.
  apply (map_pure _ (λ i x, imap (λ j y, imap (λ k z,
           g z i (Z.of_nat j) (Z.of_nat k)) y) x)).
  intros i col Hcol.
  apply (map_pure _ (λ j y, imap (λ k z, g z (Z.of_nat i) j (Z.of_nat k)) y)).
  intros j row Hrow.
  apply (map_pure _ (λ k z, g z (Z.of_nat i) (Z.of_nat j) k)).
  intros k v Hv. apply Hf, index3_Some. exists col, row.
  by rewrite !index_nat.
Qed.

Lemma map3_Throw {A B} (f : A → Z → Z → Z → result B)
    (l : list (list (list A))) e :
  Array.map (λ x i, Array.map (λ y j, Array.map (λ z k, f z i j k) y) x) l
  = Throw e →
  ∃ i j k v, index3 l i j k = Some v ∧ f v i j k = Throw e.
Proof.
  intros (i & col & Hcol & (j & row & Hrow & (k & v & Hv & He)%map_Throw
                             )%map_Throw)%map_Throw.
  exists (Z.of_nat i), (Z.of_nat j), (Z.of_nat k), v. split; [|done].
  apply index3_Some. exists col, row. by rewrite !index_nat.
Qed.

Lemma Forall3_map3 {A B} (P : B → Prop) (g : A → Z → Z → Z → B)
    (l : list (list (list A))) :
  (∀ v i j k, P (g v i j k)) → Forall (Forall (Forall P)) (map3 g l).
Proof.
  intros HP. unfold map3.
  apply Forall_forall. intros col (i & ? & -> & _)%elem_of_lookup_imap_1.
  apply Forall_forall. intros row (j & ? & -> & _)%elem_of_lookup_imap_1.
  apply Forall_forall. intros v (k & ? & -> & _)%elem_of_lookup_imap_1.
  apply HP.
Qed.

Lemma Cube_fromJSON_null (j : Cube.json) :
  None ∈ Array.flat2 (Cube.json_vox j) → Cube.fromJSON j = Throw TypeError.
Proof.
  intros (x & y & z & Hnull)%flat2_index3. unfold Cube.fromJSON.
  destruct (Array.map _ (Cube.json_vox j)) as [vox|e] eqn:Hmap.
  - exfalso.
    apply index3_Some in Hnull as (col & row & Hcol & Hrow & Hv).
    apply index_Some in Hcol as [_ Hcol].
    apply index_Some in Hrow as [_ Hrow].
    apply index_Some in Hv as [_ Hv].
    apply map_Ok in Hmap as [_ Hmap].
    destruct (Hmap _ _ Hcol) as (col' & _ & [_ Hmap']%map_Ok).
    destruct (Hmap' _ _ Hrow) as (row' & _ & [_ Hmap'']%map_Ok).
    by destruct (Hmap'' _ _ Hv) as (? & _ & ?).
  - cbn [JS.bind]. f_equal.
    apply (map3_Throw (λ v _ _ _, let* v := Voxel.fromJSON v in Ok (Some v)))
      in Hmap as (_ & _ & _ & v & _ & Hv).
    destruct v; [done|]. by injection Hv.
Qed.

Lemma Cube_fromJSON_full (j : Cube.json) :
  None ∉ Array.flat2 (Cube.json_vox j) →
  Cube.fromJSON j
  = Ok (Cube.mk (Cube.json_name j) (Cube.json_description j)
          (map3 (λ v _ _ _, Some (voxel_of_values (default [] v)))
             (Cube.json_vox j))
          (Cube.json_author j)).
Proof.
  intros Hfull. unfold Cube.fromJSON.
  rewrite (map3_pure
    (λ v _ _ _, let* v := Voxel.fromJSON v in Ok (Some v))
    (λ v _ _ _, Some (voxel_of_values (default [] v)))); [done|].
  intros x y z [values|] Hv%index3_flat2; [done|]. by destruct Hfull.
Qed.

Lemma Cube_fromJSON_all_voxels (j : Cube.json) (c : Cube.t) :
  Cube.fromJSON j = Ok c → Cube.all_voxels c.
Proof.
  intros Hc.
  destruct (decide (None ∈ Array.flat2 (Cube.json_vox j))) as [Hnull|Hfull].
  - by rewrite (Cube_fromJSON_null j Hnull) in Hc.
  - rewrite (Cube_fromJSON_full j Hfull) in Hc. injection Hc as <-.
    unfold Cube.all_voxels. cbn [Cube.vox]. apply Forall3_map3.
    intros. by eexists.
Qed.

(** X18. Deserializing a cube. [Cube.fromJSON] throws a [TypeError] when an
    element of the serialized grid is [null]. Otherwise it returns a cube
    with the name, the description and the author of the serialized one
    and a grid of the same shape, whose elements are the voxels built from
    the serialized values, a missing value counting as 0; every element
    of that grid is a voxel, so the voxel types of the cube can be
    computed. *)
Theorem Cube_fromJSON_cases (j : Cube.json) :
  (None ∈ Array.flat2 (Cube.json_vox j) → Cube.fromJSON j = Throw TypeError) ∧
  (None ∉ Array.flat2 (Cube.json_vox j) →
   ∃ c, Cube.fromJSON j = Ok c ∧
        Cube.name c = Cube.json_name j ∧
        Cube.description c = Cube.json_description j ∧
        Cube.author c = Cube.json_author j ∧
        (∀ x y z,
           index3 (Cube.vox c) x y z
           = (λ v, Some (voxel_of_values (default [] v)))
             <$> index3 (Cube.json_vox j) x y z) ∧
        Cube.all_voxels c ∧
        ∃ types, Cube.voxelTypes c = Ok types).
Proof.
  split; [apply Cube_fromJSON_null|].
  intros Hfull. pose proof (Cube_fromJSON_full j Hfull) as Heq.
  pose proof (Cube_fromJSON_all_voxels _ _ Heq) as Hall.
  eexists. split; [exact Heq|]. split_and!; try done.
  - intros x y z. cbn [Cube.vox]. apply index3_map3.
  - apply Cube_all_voxels in Hall as [vs Hvs]. eexists.
    by apply Cube_voxelTypes_defined.
Qed.

Lemma Cube_fromJSON_cases_witness :
  let j := Cube.mkJson "brick" "" [[[Some [255; 0; 0; 1]; Some [7]]]] "me" in
  let broken := Cube.mkJson "" "" [[[Some [255; 0; 0; 1]; None]]] "" in
  Cube.fromJSON broken = Throw TypeError ∧
  ∃ c, Cube.fromJSON j = Ok c ∧
       index3 (Cube.vox c) 0 0 1 = Some (Some (Voxel.mk 7 0 0 0)).
Proof.
  intros j broken. split.
  - apply (proj1 (Cube_fromJSON_cases broken)). by repeat constructor.
  - destruct (proj2 (Cube_fromJSON_cases j)) as (c & Hc & _ & _ & _ & Hvox & _).
    + intros Hnull. by repeat (apply elem_of_cons in Hnull as [?|Hnull];
        [done|]); apply elem_of_nil in Hnull.
    + exists c. split; [done|]. by rewrite Hvox.
Defined.

(** X19. Deserializing a world. When [World.fromJSON] returns, the world
    has the name, the description, the author and the space of the
    serialized one, its palette holds the deserialized cubes in their
    order, every element of every cube is a voxel, and the voxel types of
    the world can be computed. It throws a [TypeError] as soon as one
    serialized cube holds a [null]. *)
Theorem World_fromJSON_loaded (j : World.json) :
  (Exists (λ c, None ∈ Array.flat2 (Cube.json_vox c)) (World.json_cube j) →
   World.fromJSON j = Throw TypeError) ∧
  (∀ w, World.fromJSON j = Ok w →
     World.name w = World.json_name j ∧
     World.description w = World.json_description j ∧
     World.author w = World.json_author j ∧
     World.space w = World.json_space j ∧
     Forall2 (λ cj c, Cube.fromJSON cj = Ok c)
       (World.json_cube j) (World.cube w) ∧
     Forall Cube.all_voxels (World.cube w) ∧
     ∃ types, World.voxelTypes w = Ok types).
Proof.
  split.
  - intros (cj & [n Hn]%list_elem_of_lookup & Hnull)%Exists_exists.
    unfold World.fromJSON.
    destruct (Array.map _ (World.json_cube j)) as [cubes|e] eqn:Hmap.
    + apply map_Ok in Hmap as [_ Hmap].
      destruct (Hmap _ _ Hn) as (c & _ & Hc).
      by rewrite (Cube_fromJSON_null cj Hnull) in Hc.
    + cbn [JS.bind]. f_equal.
      apply map_Throw in Hmap as (m & cj' & _ & Hthrow).
      destruct (decide (None ∈ Array.flat2 (Cube.json_vox cj')))
        as [Hnull'|Hfull].
      * rewrite (Cube_fromJSON_null cj' Hnull') in Hthrow. by injection Hthrow.
      * by rewrite (Cube_fromJSON_full cj' Hfull) in Hthrow.
  - intros w. unfold World.fromJSON.
    intros (cubes & Hmap & [= <-])%bind_Ok_inv.
    cbn [World.name World.description World.author World.space World.cube].
    apply map_Ok in Hmap as [Hlen Hmap].
    assert (Forall2 (λ cj c, Cube.fromJSON cj = Ok c)
              (World.json_cube j) cubes) as Hcubes.
    { apply Forall2_same_length_lookup_2; [done|].
      intros n cj c Hcj Hc. destruct (Hmap _ _ Hcj) as (c' & Hc' & ?).
      by simplify_eq. }
    assert (Forall Cube.all_voxels cubes) as Hall.
    { apply Forall_forall. intros c [n Hc]%list_elem_of_lookup.
      destruct (Forall2_lookup_r _ _ _ _ _ Hcubes Hc) as (cj & _ & Hcj).
      by apply (Cube_fromJSON_all_voxels cj). }
    split_and!; try done.
    by apply World_voxelTypes_total.
Qed.

Lemma World_fromJSON_loaded_witness :
  let brick := Cube.mkJson "brick" "" [[[Some [255; 0; 0; 1]]]] "me" in
  let broken := Cube.mkJson "" "" [[[None]]] "" in
  let j := World.mkJson "home" "" [brick; brick] [[[1; 2]]] "me" in
  World.fromJSON (World.mkJson "" "" [brick; broken] [[[0]]] "")
  = Throw TypeError ∧
  ∃ w, World.fromJSON j = Ok w ∧
       World.voxelTypes w = Ok [Voxel.mk 255 0 0 1] ∧
       Forall Cube.all_voxels (World.cube w).
Proof.
  intros brick broken j. split.
  - apply (proj1 (World_fromJSON_loaded
             (World.mkJson "" "" [brick; broken] [[[0]]] ""))).
    apply Exists_cons_tl, Exists_cons_hd. by repeat constructor.
  - eexists. split; [reflexivity|]. split; [reflexivity|].
    by destruct (proj2 (World_fromJSON_loaded j) _ eq_refl)
      as (_ & _ & _ & _ & _ & Hall & _).
Defined.

(** ** Filled blocks *)

Lemma rem_block (c i a : Z) : 0 ≤ i → 0 ≤ a < c → (i * c + a) `rem` c = a.
Proof.
  intros Hi Ha. rewrite Z.rem_mod_nonneg by nia.
  symmetry. apply (Z.mod_unique_pos _ c i a); lia.
Qed.

(** X20. A filled block. Let the palette be non-empty with a first cube as
    deep as it is wide, and let [asCube] return a cube. For every
    coordinate [(i, j, k)] of the space whose id is not 0, the id names a
    cube of the palette, and the returned cube holds, at the offset
    [(a, b, e)] of that block, what the grid of the named cube holds at
    [(a, b, e)]: its column [a] and row [b] exist, and the element is the
    one at [e] of that row, [undefined] when the row is shorter. *)
Theorem asCube_filled_block (w : World.t) (c0 : Cube.t) (rest : list Cube.t)
    (out : Cube.t) (ch : Z) (i j k id a b e : Z) :
  World.cube w = c0 :: rest →
  Cube.height c0 = Ok ch → Cube.depth c0 = Ok (Cube.width c0) →
  World.asCube w = Ok out →
  index3 (World.space w) i j k = Some id → id ≠ 0 →
  0 ≤ a < Cube.width c0 → 0 ≤ b < ch → 0 ≤ e < Cube.width c0 →
  ∃ c col row,
    index (World.cube w) (Some (id - 1)) = Some c ∧
    index (Cube.vox c) (Some a) = Some col ∧
    index col (Some b) = Some row ∧
    index3 (Cube.vox out)
      (i * Cube.width c0 + a) (j * ch + b) (k * Cube.width c0 + e)
    = Some (mjoin (index row (Some e))).
Proof.
  intros Hc Hch Hcd Hout Hid Hid0 Ha Hb He.
  destruct (integrity_true_inv w c0 rest Hc (asCube_Ok_integrity _ _ Hout))
    as (h & d & ch' & ? & Hh & Hd & Hch' & _ & Hcw1 & Hch1 & _).
  rewrite Hch in Hch'. injection Hch' as <-.
  destruct (asCube_Ok_space_box w c0 rest out h d ch i j k id)
    as (Hi & Hj & Hk); try done.
  apply index3_Some in Hid as (scol & srow & Hscol & Hsrow & Hid).
  set (cw := Cube.width c0) in *.
  assert (0 ≤ i * cw + a < cw * World.width w) as Hx' by nia.
  assert (0 ≤ j * ch + b < ch * h) as Hy' by nia.
  assert (0 ≤ k * cw + e < cw * d) as Hz' by nia.
  destruct (asCube_Ok_grid w c0 rest out h d ch cw)
    as (_ & _ & Hgrid); try done.
  destruct (Hgrid _ Hx') as (ocol & Hocol & _ & Hrows).
  destruct (Hrows _ Hy') as (orow & Horow & _ & Hvs).
  destruct (Hvs _ Hz') as (v & Hv & Hcb).
  rewrite (asCube_voxel_by_width w c0 rest ch) in Hcb; [|done|done|lia..].
  unfold World.voxel_by_width in Hcb. fold cw in Hcb.
  rewrite (div_block _ _ i), (div_block _ _ j), (div_block _ _ k) in Hcb
    by lia.
  rewrite !rem_block in Hcb by lia.
  rewrite Hscol in Hcb. cbn [JS.bind defined] in Hcb.
  rewrite Hsrow in Hcb. cbn [JS.bind defined] in Hcb.
  rewrite Hid, bool_decide_eq_false_2 in Hcb by congruence.
  cbn [fmap option_fmap option_map] in Hcb.
  apply bind_Ok_inv in Hcb as (c & Hc0%defined_Ok & Hcb).
  apply bind_Ok_inv in Hcb as (col & Hcol%defined_Ok & Hcb).
  apply bind_Ok_inv in Hcb as (row & Hrow%defined_Ok & [= <-]).
  exists c, col, row. split_and!; [done..|].
  apply index3_Some. by exists ocol, orow.
Qed.

Lemma asCube_filled_block_witness :
  let a := Voxel.mk 255 0 0 1 in
  let b := Voxel.mk 0 255 0 1 in
  let c0 := Cube.mk "" "" [[[Some a; Some b]]; [[Some b; Some a]]] "" in
  let w := World.mk "" "" [c0] [[[0; 1]]] "" in
  (∃ out, World.asCube w = Ok out) ∧
  ∀ out, World.asCube w = Ok out →
    index3 (Cube.vox out) 1 0 2 = Some (Some b).
Proof.
  intros a b c0 w. split; [by eexists|]. intros out Hout.
  destruct (asCube_filled_block w c0 [] out 1 0 0 1 1 1 0 0)
    as (c & col & row & Hc & Hcol & Hrow & Hv); try done.
  vm_compute in Hc. injection Hc as <-.
  vm_compute in Hcol. injection Hcol as <-.
  vm_compute in Hrow. injection Hrow as <-.
  exact Hv.
Defined.
